(** * PaGMO population and archipelago: shallow embedding and verified properties

    The development embeds [pagmo::population] (src/include/population.hpp),
    the seeded constructor and the [load] method of [pagmo::archipelago]
    and the three estimation utilities that follow it
    (src/include/pagmo/archipelago.hpp) as executable Rocq definitions, and
    proves the properties the specification states about them.

    Conventions.
    - [std::vector<T>] is [list T]; [size_type] values that count elements
      are [nat]; 32 and 64 bit unsigned values (seeds, IDs) are [Z] with the
      wrap-around written out where the code casts.
    - [double] is the IEEE 754 value type [spec_float] of the Standard
      Library, with [SFltb] for the C++ [<]: NaN is a value, and compares
      false with everything.
    - A member function that mutates [*this] is a computation in the monad
      [M]: it takes the population before the call and returns an outcome
      together with the population after the call, so that what an
      exception leaves behind can be stated.
    - An [assert] of the source that fails, and an access the language leaves
      undefined, is the outcome [Undefined].
    - Allocation failures of the standard containers are not modelled. *)

From Stdlib Require Import ZArith List Bool Lia SpecFloat String.
From stdpp Require Import base list gmap numbers strings pretty sorting.

Local Open Scope string_scope.
Local Open Scope list_scope.
Local Open Scope nat_scope.

(** ** Values *)

Abbreviation double := spec_float (only parsing).
Abbreviation vector_double := (list spec_float) (only parsing).

(** [a < b] on [double]. *)
Definition dlt (a b : double) : bool := SFltb a b.
(** [a <= b] on [double]. *)
Definition dle (a b : double) : bool := SFleb a b.

Definition is_nan (a : double) : bool :=
  match a with S754_nan => true | _ => false end.

#[export] Instance double_inhabited : Inhabited double :=
  populate (S754_zero false).

(** [operator<] of [std::vector<double>]: [std::lexicographical_compare]. *)
Fixpoint vec_lt (a b : vector_double) : bool :=
  match a, b with
  | _, [] => false
  | [], _ :: _ => true
  | x :: a', y :: b' =>
      if dlt x y then true else if dlt y x then false else vec_lt a' b'
  end.

(** [std::min_element(first, last, comp)]: the first smallest element; the
    end iterator ([None]) on an empty range. *)
Fixpoint min_element_from {A : Type} (comp : A → A → bool)
    (smallest : A) (rest : list A) : A :=
  match rest with
  | [] => smallest
  | y :: rest' =>
      min_element_from comp (if comp y smallest then y else smallest) rest'
  end.

Definition min_element {A : Type} (comp : A → A → bool) (l : list A) : option A :=
  match l with
  | [] => None
  | x :: rest => Some (min_element_from comp x rest)
  end.

(** [std::copy(src.begin(), src.end(), dst.begin())], for a source that is
    not longer than the destination. *)
Definition std_copy {A : Type} (src dst : list A) : list A :=
  src ++ drop (length src) dst.

(** ** Exceptions and outcomes *)

(** What a call can throw: [std::invalid_argument] raised by [pagmo_throw]
    with its message, [std::overflow_error],
    [boost::numeric::bad_numeric_cast], and the
    "unspecified" exceptions of code supplied from outside, of whatever
    C++ type they are (a payload identifies them). *)
Inductive exn : Type :=
  | invalid_argument (what : string)
  | overflow_error (what : string)
  | bad_numeric_cast
  | unspecified (payload : N).

(** Result of a call into code that is not part of the population: it
    returns, or it raises an exception of its own. *)
Inductive user_result (A : Type) : Type :=
  | Returns (a : A)
  | Raises (payload : N).
Arguments Returns {A} a.
Arguments Raises {A} payload.

Inductive outcome (A : Type) : Type :=
  | Ok (a : A)
  | Throw (e : exn)
  | Undefined.
Arguments Ok {A} a.
Arguments Throw {A} e.
Arguments Undefined {A}.

Definition is_ok {A : Type} (o : outcome A) : bool :=
  match o with Ok _ => true | _ => false end.

(** The outcome is a [std::invalid_argument] that the code modelled here
    raised itself. *)
Definition is_invalid_argument {A : Type} (o : outcome A) : bool :=
  match o with Throw (invalid_argument _) => true | _ => false end.

(** ** The problem handle

    [pagmo::problem] is a type-erased handle; problem.hpp is not among the
    sources, so the handle is the record of the capabilities the population
    calls. *)
Record problem : Type := {
  fitness : vector_double → user_result vector_double;
  get_bounds : vector_double * vector_double;
  get_nx : nat;
  get_nobj : nat;
  get_nec : nat;
  get_nic : nat
}.

(** Modelled from the spec: [problem::get_nf] (problem.hpp is missing). The
    data model gives the fitness dimension as
    [nf = 1 + nec + nic + (nobj - 1)]. *)
Definition get_nf (p : problem) : nat :=
  1 + get_nec p + get_nic p + (get_nobj p - 1).

(** Modelled from the spec: [problem::get_nc] (problem.hpp is missing), the
    number of constraints [nec + nic]. *)
Definition get_nc (p : problem) : nat := get_nec p + get_nic p.

(** ** Collaborators that are declared outside the sources *)

(** rng.hpp: [detail::random_engine_type] with the two distributions the
    population draws from it. *)
Class RandomEngine (E : Type) : Type := {
  (** [E(seed)] *)
  engine_seed : Z → E;
  (** [std::uniform_int_distribution<unsigned int>()(e)] *)
  uniform_u32 : E → Z * E;
  (** [std::uniform_int_distribution<unsigned long long>()(e)] *)
  uniform_u64 : E → Z * E
}.

(** rng.hpp: the process-wide [pagmo::random_device], whose [next()] is the
    default seed argument. *)
Class RandomDevice (G : Type) : Type := {
  random_device_next : G → Z * G
}.

(** utils/generic.hpp: [pagmo::decision_vector(bounds, seed)]; and the two
    notions of utils/constrained.hpp that the specification names without
    defining them: whether a fitness vector with [neq] equality
    constraints meets its constraints within the tolerances [tol], and the
    aggregated violation of its constraints. *)
Class Utils : Type := {
  pagmo_decision_vector :
    vector_double * vector_double → Z → user_result vector_double;
  con_feasible : nat → vector_double → vector_double → bool;
  con_violation : nat → vector_double → vector_double → double
}.

(** Modelled from the spec: the comparison of [pagmo::sort_population_con]
    (utils/constrained.hpp is missing). "The standard constrained ordering
    (feasible-first, then by objective, ties broken by aggregated
    constraint violation), using per-constraint tolerance vector [tol]":
    [con_before neq tol f g] says that [f] comes strictly before [g]. *)
Definition con_before `{!Utils} (neq : nat) (tol f g : vector_double) : bool :=
  if con_feasible neq tol f && negb (con_feasible neq tol g) then true
  else if negb (con_feasible neq tol f) && con_feasible neq tol g then false
  else if dlt (f !!! 0) (g !!! 0) then true
  else if dlt (g !!! 0) (f !!! 0) then false
  else dlt (con_violation neq tol f) (con_violation neq tol g).

(** Individual [j] does not come strictly before individual [i]. *)
Definition con_not_after `{!Utils} (neq : nat) (tol : vector_double)
    (fs : list vector_double) (i j : nat) : Prop :=
  con_before neq tol (fs !!! j) (fs !!! i) = false.

#[export] Instance con_not_after_dec `{!Utils} neq tol fs i j :
  Decision (con_not_after neq tol fs i j).
Proof. unfold con_not_after. apply _. Defined.

(** Modelled from the spec: [pagmo::sort_population_con(fs, neq, tol)]
    (utils/constrained.hpp is missing), the indices of the population in
    the constrained ordering: the sequence [0 .. |fs| - 1] sorted by
    [con_before], individuals that neither comes before the other in the
    order they are stored in. *)
Definition sort_population_con `{!Utils} (fs : list vector_double)
    (neq : nat) (tol : vector_double) : list nat :=
  merge_sort (con_not_after neq tol fs) (seq 0 (length fs)).

(** ** State and exception monad of the member functions

    A member function runs on the object [S] it is called on; the object it
    leaves behind is returned with the outcome, also when it throws. *)
Definition M (S A : Type) : Type := S → outcome A * S.

Definition ret {S A : Type} (a : A) : M S A := fun s => (Ok a, s).

Definition bind {S A B : Type} (m : M S A) (k : A → M S B) : M S B :=
  fun s =>
    match m s with
    | (Ok a, s') => k a s'
    | (Throw e, s') => (Throw e, s')
    | (Undefined, s') => (Undefined, s')
    end.

Definition throw {S A : Type} (e : exn) : M S A := fun s => (Throw e, s).
Definition undefined {S A : Type} : M S A := fun s => (Undefined, s).
Definition get {S : Type} : M S S := fun s => (Ok s, s).
Definition put {S : Type} (s' : S) : M S unit := fun _ => (Ok tt, s').

(** [assert(b)] *)
Definition assert {S : Type} (b : bool) : M S unit :=
  if b then ret tt else undefined.

(** A call into outside code: its exception propagates. *)
Definition call {S A : Type} (r : user_result A) : M S A :=
  match r with
  | Returns a => ret a
  | Raises k => throw (unspecified k)
  end.

Notation "'let!' x ':=' c1 'in' c2" := (bind c1 (fun x => c2))
  (at level 10, x name, c1 at level 100, c2 at level 200,
   format "'[v' 'let!'  x  :=  c1  'in' '/' c2 ']'").

(** [for (size_type i = 0u; i < n; ++i) body] *)
Fixpoint for_loop {S : Type} (n : nat) (body : M S unit) : M S unit :=
  match n with
  | 0 => ret tt
  | S n' => let! _ := body in for_loop n' body
  end.

(** ** The population *)

Record population (E : Type) : Type := {
  m_prob : problem;
  m_ID : list Z;
  m_x : list vector_double;
  m_f : list vector_double;
  m_e : E;
  m_seed : Z
}.
Arguments m_prob {E} _.
Arguments m_ID {E} _.
Arguments m_x {E} _.
Arguments m_f {E} _.
Arguments m_e {E} _.
Arguments m_seed {E} _.

(** A draw from the engine [m_e], which is [mutable]. *)
Definition draw {E : Type} (dist : E → Z * E) : M (population E) Z :=
  fun p =>
    let '(v, e') := dist (m_e p) in
    (Ok v, {| m_prob := m_prob p; m_ID := m_ID p; m_x := m_x p;
              m_f := m_f p; m_e := e'; m_seed := m_seed p |}).

Section PopulationOps.
Context {E : Type} `{!RandomEngine E} `{!Utils}.

(** [population::size] (lines 215-220), with its two assertions. *)
Definition size : M (population E) nat :=
  let! p := get in
  let! _ := assert (length (m_f p) =? length (m_ID p)) in
  let! _ := assert (length (m_x p) =? length (m_ID p)) in
  ret (length (m_ID p)).

Definition push_back_x_msg (n nx : nat) : string :=
  "A decision vector of size " +:+ pretty n +:+
  " is being inserted into the population, but the problem dimension is "
  +:+ pretty nx.

Definition push_back_f_msg (n nf : nat) : string :=
  "A fitness vector of size " +:+ pretty n +:+
  " is being inserted into the population, but the fitness dimension of the problem is "
  +:+ pretty nf.

(** [population::push_back] (lines 130-159). *)
Definition push_back (x : vector_double) : M (population E) unit :=
  let! new_id := draw uniform_u64 in
  let x_copy := x in
  let! p := get in
  let! f := call (fitness (m_prob p) x) in
  if negb (length x_copy =? get_nx (m_prob p)) then
    throw (invalid_argument
             (push_back_x_msg (length x_copy) (get_nx (m_prob p))))
  else if negb (length f =? get_nf (m_prob p)) then
    throw (invalid_argument
             (push_back_f_msg (length f) (get_nf (m_prob p))))
  else
    let! p := get in
    put {| m_prob := m_prob p;
           m_ID := m_ID p ++ [new_id];
           m_x := m_x p ++ [x_copy];
           m_f := m_f p ++ [f];
           m_e := m_e p;
           m_seed := m_seed p |}.

(** [population::decision_vector] (lines 170-173). *)
Definition decision_vector : M (population E) vector_double :=
  let! s := draw uniform_u32 in
  let! p := get in
  call (pagmo_decision_vector (get_bounds (m_prob p)) s).

(** [population::population(p, pop_size, seed)] (lines 69-74). The
    parameter [seed] is an [unsigned int]: the integer it is called with
    is converted to it, modulo [2^32], and it is the converted value that
    seeds the engine and is recorded. A constructor that throws leaves no
    object. *)
Definition population_ctor (p : problem) (pop_size : nat) (seed : Z)
    : outcome (population E) :=
  let seed := (seed mod 2 ^ 32)%Z in
  let init := {| m_prob := p; m_ID := []; m_x := []; m_f := [];
                 m_e := engine_seed seed; m_seed := seed |} in
  match for_loop pop_size (let! x := decision_vector in push_back x) init with
  | (Ok _, pop) => Ok pop
  | (Throw e, _) => Throw e
  | (Undefined, _) => Undefined
  end.

(** The same constructor with its default arguments made explicit: an
    omitted seed is [pagmo::random_device::next()], evaluated by the
    caller in the state [g] of the global device. *)
Definition population_new {G : Type} `{!RandomDevice G}
    (p : problem) (pop_size : nat) (seed : option Z) (g : G)
    : outcome (population E) * G :=
  match seed with
  | Some s => (population_ctor p pop_size s, g)
  | None =>
      let '(s, g') := random_device_next g in
      (population_ctor p pop_size s, g')
  end.

Definition champion_empty_msg : string :=
  "Cannot determine the champion of an empty population".
Definition champion_mo_msg : string :=
  "Champion can only be extracted in single objective problems".

(** [population::champion(const vector_double &tol)] (lines 189-206). *)
Definition champion (tol : vector_double) : M (population E) nat :=
  let! n := size in
  if n =? 0 then throw (invalid_argument champion_empty_msg)
  else
    let! p := get in
    if 1 <? get_nobj (m_prob p) then
      throw (invalid_argument champion_mo_msg)
    else if 0 <? get_nc (m_prob p) then
      let order := sort_population_con (m_f p) (get_nec (m_prob p)) tol in
      match order with
      | i :: _ => ret i
      | [] => undefined
      end
    else
      let indexes := seq 0 n in
      match min_element
              (fun idx1 idx2 => vec_lt (m_f p !!! idx1) (m_f p !!! idx2))
              indexes with
      | Some i => ret i
      | None => undefined
      end.

Definition set_xf_i_msg (i n : nat) : string :=
  "Trying to access individual at position: " +:+ pretty i +:+
  ", while population has size: " +:+ pretty n.
Definition set_xf_f_msg (n nf : nat) : string :=
  "Trying to set a fitness of dimension: " +:+ pretty n +:+
  ", while problem get_nf returns: " +:+ pretty nf.
Definition set_xf_x_msg (n nx : nat) : string :=
  "Trying to set a decision vector of dimension: " +:+ pretty n +:+
  ", while problem get_nx returns: " +:+ pretty nx.

(** [population::set_xf] (lines 238-266). *)
Definition set_xf (i : nat) (x f : vector_double) : M (population E) unit :=
  let! n := size in
  if n <=? i then throw (invalid_argument (set_xf_i_msg i n))
  else
    let! p := get in
    if negb (length f =? get_nf (m_prob p)) then
      throw (invalid_argument (set_xf_f_msg (length f) (get_nf (m_prob p))))
    else if negb (length x =? get_nx (m_prob p)) then
      throw (invalid_argument (set_xf_x_msg (length x) (get_nx (m_prob p))))
    else
      let! _ := assert (length (m_x p !!! i) =? length x) in
      let! _ := assert (length (m_f p !!! i) =? length f) in
      put {| m_prob := m_prob p;
             m_ID := m_ID p;
             m_x := <[i := std_copy x (m_x p !!! i)]> (m_x p);
             m_f := <[i := std_copy f (m_f p !!! i)]> (m_f p);
             m_e := m_e p;
             m_seed := m_seed p |}.

(** [population::set_x] (lines 281-284): the argument
    [m_prob.fitness(x)] is evaluated before [set_xf] is entered. *)
Definition set_x (i : nat) (x : vector_double) : M (population E) unit :=
  let! p := get in
  let! f := call (fitness (m_prob p) x) in
  set_xf i x f.

(** The read back of individual [i]. *)
Definition individual (p : population E) (i : nat)
    : option (Z * vector_double * vector_double) :=
  match m_ID p !! i, m_x p !! i, m_f p !! i with
  | Some id, Some x, Some f => Some (id, x, f)
  | _, _, _ => None
  end.

(** The invariant of the data model: the three sequences are aligned and
    every vector has the dimension the problem reports. *)
Definition pop_inv (p : population E) : Prop :=
  length (m_x p) = length (m_ID p) ∧
  length (m_f p) = length (m_ID p) ∧
  Forall (fun x => length x = get_nx (m_prob p)) (m_x p) ∧
  Forall (fun f => length f = get_nf (m_prob p)) (m_f p).

(** *** Vocabulary of the specification *)

Implicit Types (p : population E) (x f : vector_double).

(** The population with the engine replaced. *)
Definition with_engine p (e : E) : population E :=
  {| m_prob := m_prob p; m_ID := m_ID p; m_x := m_x p; m_f := m_f p;
     m_e := e; m_seed := m_seed p |}.

(** The population with the fitness function of its problem replaced. *)
Definition with_fitness (g : vector_double → user_result vector_double) p
    : population E :=
  {| m_prob := {| fitness := g; get_bounds := get_bounds (m_prob p);
                  get_nx := get_nx (m_prob p);
                  get_nobj := get_nobj (m_prob p);
                  get_nec := get_nec (m_prob p);
                  get_nic := get_nic (m_prob p) |};
     m_ID := m_ID p; m_x := m_x p; m_f := m_f p; m_e := m_e p;
     m_seed := m_seed p |}.

(** The population with the individual [(id, x, f)] appended. *)
Definition appended p (id : Z) x f : population E :=
  {| m_prob := m_prob p; m_ID := m_ID p ++ [id]; m_x := m_x p ++ [x];
     m_f := m_f p ++ [f]; m_e := m_e p; m_seed := m_seed p |}.

(** The two assertions of [size]. *)
Definition aligned p : bool :=
  (length (m_f p) =? length (m_ID p)) && (length (m_x p) =? length (m_ID p)).

(** The population after a successful [set_xf]. *)
Definition overwritten p (i : nat) x f : population E :=
  {| m_prob := m_prob p; m_ID := m_ID p;
     m_x := <[i := std_copy x (m_x p !!! i)]> (m_x p);
     m_f := <[i := std_copy f (m_f p !!! i)]> (m_f p);
     m_e := m_e p; m_seed := m_seed p |}.

(** The reading of the specification: [set_both(i, x, problem.fitness(x))],
    where the argument is computed first and its failure is the failure of
    the whole call. *)
Definition set_both_of_fitness (i : nat) x : M (population E) unit :=
  fun p =>
    match fitness (m_prob p) x with
    | Returns f => set_xf i x f p
    | Raises k => (Throw (unspecified k), p)
    end.

(** The first fitness component of individual [i]: [f[i][0]]. *)
Definition objective p (i : nat) : option double :=
  match m_f p !! i with
  | Some (a :: _) => Some a
  | _ => None
  end.

End PopulationOps.

(** ** [std::mt19937]

    The engine the archipelago seeds, as the C++ standard defines it:
    [mersenne_twister_engine<uint_fast32_t, 32, 624, 397, 31, 0x9908b0df,
    11, 0xffffffff, 7, 0x9d2c5680, 15, 0xefc60000, 18, 1812433253>]. The
    state is the sequence of 624 words and the position of the next word to
    temper. *)
Module mt19937.
Local Open Scope Z_scope.

Definition word_size : Z := 32.
Definition state_size : nat := 624.
Definition shift_size : nat := 397.
Definition xor_mask : Z := 0x9908b0df.
Definition upper_mask : Z := 0x80000000.
Definition lower_mask : Z := 0x7fffffff.
Definition initialization_multiplier : Z := 1812433253.

(** Reduction to [result_type], an unsigned 32 bit value. *)
Definition wrap (z : Z) : Z := z mod 2 ^ word_size.

Record state : Type := { mt : list Z; mti : nat }.

(** The words after the first one of a freshly seeded state:
    [x_i = (f * (x_(i-1) xor (x_(i-1) >> 30)) + i) mod 2^32]. *)
Fixpoint seed_words (k : nat) (prev : Z) (i : Z) : list Z :=
  match k with
  | O => []
  | S k' =>
      let x :=
        wrap (initialization_multiplier * Z.lxor prev (Z.shiftr prev 30) + i) in
      x :: seed_words k' x (i + 1)
  end.

(** [mt19937(value)] *)
Definition seed (value : Z) : state :=
  let x0 := wrap value in
  {| mt := x0 :: seed_words (state_size - 1) x0 1; mti := state_size |}.

(** One step of the regeneration of the state, at word [k]. *)
Definition twist_at (x : list Z) (k : nat) : list Z :=
  let y := Z.lor (Z.land (x !!! k) upper_mask)
                 (Z.land (x !!! ((k + 1) mod state_size)%nat) lower_mask) in
  let v := Z.lxor (Z.lxor (x !!! ((k + shift_size) mod state_size)%nat)
                          (Z.shiftr y 1))
                  (if Z.odd y then xor_mask else 0) in
  <[k := v]> x.

(** The regeneration of all 624 words, in place and in increasing order. *)
Definition twist (x : list Z) : list Z :=
  fold_left twist_at (seq 0 state_size) x.

Definition temper (y : Z) : Z :=
  let y := Z.lxor y (Z.land (Z.shiftr y 11) 0xffffffff) in
  let y := Z.lxor y (Z.land (Z.shiftl y 7) 0x9d2c5680) in
  let y := Z.lxor y (Z.land (Z.shiftl y 15) 0xefc60000) in
  Z.lxor y (Z.shiftr y 18).

(** [operator()]: the next 32 bit value and the engine after the call. *)
Definition next (e : state) : Z * state :=
  let e := if (state_size <=? mti e)%nat
           then {| mt := twist (mt e); mti := 0 |} else e in
  (temper (mt e !!! mti e), {| mt := mt e; mti := S (mti e) |}).

(** [std::uniform_int_distribution<unsigned>()(e)]: the distribution
    covers the whole range of the engine, [0 .. 2^32 - 1], and hands out
    the value of the engine (the algorithm is left to the implementation;
    this is what libstdc++, libc++ and the Microsoft library do). *)
Definition udist (e : state) : Z * state := next e.

(** [std::uniform_int_distribution<unsigned long long>()(e)]: two values
    of the engine, the first one in the upper half (as libstdc++ does). *)
Definition udist64 (e : state) : Z * state :=
  let '(hi, e) := next e in
  let '(lo, e) := next e in
  (hi * 2 ^ word_size + lo, e).

(** The first [n] values that [udist] draws from [e]. *)
Fixpoint draws (n : nat) (e : state) : list Z :=
  match n with
  | O => []
  | S n' => let '(v, e') := udist e in v :: draws n' e'
  end.
End mt19937.

(** The values of an [unsigned] of 32 bits. *)
Definition in32 (z : Z) : Prop := (0 ≤ z < 2 ^ 32)%Z.

#[export] Instance mt19937_engine : RandomEngine mt19937.state := {
  engine_seed := mt19937.seed;
  uniform_u32 := mt19937.udist;
  uniform_u64 := mt19937.udist64
}.

(** ** The archipelago *)

(** topology.hpp: the type-erased topology handle. *)
Class Topology (T : Type) : Type := {
  (** the default-constructed topology *)
  topology_default : T;
  (** [topology::push_back()] *)
  topology_push_back : T → user_result T
}.

(** [std::unique_ptr<T>]: the address [get()] returns and the object that
    lives there. *)
Record unique_ptr (T : Type) : Type := {
  ptr_get : N;
  ptr_deref : T
}.
Arguments ptr_get {T} _.
Arguments ptr_deref {T} _.

(** [individuals_group_t]: IDs, decision vectors and fitness vectors. *)
Definition individuals_group_t : Type :=
  (list Z * list vector_double * list vector_double)%type.

(** [std::unordered_map::emplace]: no effect on a key that is present. *)
Definition emplace (k : N) (v : nat) (m : gmap N nat) : gmap N nat :=
  match m !! k with
  | Some _ => m
  | None => <[k := v]> m
  end.

Section Archipelago.
Context {E : Type} `{!RandomEngine E} `{!Utils}.
Context {algorithm : Type} {topology : Type} `{!Topology topology}.

(** island.hpp is not among the sources: an island is the algorithm and
    the population it owns. *)
Record island : Type := {
  isl_algo : algorithm;
  isl_pop : population E
}.

(** The members: [container_t] is a vector of owned islands,
    [idx_map_t] an [unordered_map] from the address of an island to its
    index, [migrants_db_t] a vector of groups of individuals. *)
Record archipelago : Type := {
  m_islands : list (unique_ptr island);
  m_idx_map : gmap N nat;
  m_migrants : list individuals_group_t;
  m_topology : topology
}.

(** What a member function of the archipelago runs on: the archipelago
    and the free store, of which the addresses below [brk] are taken. *)
Record world : Type := {
  this : archipelago;
  brk : N
}.

(** Modelled from the spec: the default constructor (archipelago.cpp is
    missing), an empty archipelago with a default-constructed topology. *)
Definition archipelago_default : archipelago :=
  {| m_islands := []; m_idx_map := ∅; m_migrants := [];
     m_topology := topology_default |}.

(** Modelled from the spec: the island constructor from
    [(Algorithm, Problem, size, seed)] (island.hpp is missing), which
    builds [Population(problem, size, seed)]. *)
Definition island_ctor (a : algorithm) (p : problem) (pop_size : nat)
    (seed : Z) : outcome island :=
  match population_ctor p pop_size seed with
  | Ok pop => Ok {| isl_algo := a; isl_pop := pop |}
  | Throw e => Throw e
  | Undefined => Undefined
  end.

(** [detail::make_unique<island>(a, p, size, seed)] *)
Definition make_unique_island (a : algorithm) (p : problem)
    (pop_size : nat) (seed : Z) : M world (unique_ptr island) :=
  fun w =>
    match island_ctor a p pop_size seed with
    | Ok isl =>
        (Ok {| ptr_get := brk w; ptr_deref := isl |},
         {| this := this w; brk := (brk w + 1)%N |})
    | Throw e => (Throw e, w)
    | Undefined => (Undefined, w)
    end.

Definition size_type_max : N := (2 ^ 64 - 1)%N.

(** Modelled from the spec: [archipelago::push_back_impl]
    (archipelago.cpp is missing). "Append it to the islands sequence;
    insert (pointer, index) into the idx map; append an empty slot to the
    MigrantDB; call topology.push_back(). Fails with Overflow if size
    would exceed the implementation-defined maximum." *)
Definition push_back_impl (ptr : unique_ptr island) : M world unit :=
  let! w := get in
  let a := this w in
  if (N.of_nat (length (m_islands a)) =? size_type_max)%N then
    throw (overflow_error "The size of the archipelago is too large")
  else
    let idx := length (m_islands a) in
    let a1 := {| m_islands := m_islands a ++ [ptr];
                 m_idx_map := <[ptr_get ptr := idx]> (m_idx_map a);
                 m_migrants := m_migrants a ++ [([], [], [])];
                 m_topology := m_topology a |} in
    let! _ := put {| this := a1; brk := brk w |} in
    let! t := call (topology_push_back (m_topology a1)) in
    put {| this := {| m_islands := m_islands a1;
                      m_idx_map := m_idx_map a1;
                      m_migrants := m_migrants a1;
                      m_topology := t |};
           brk := brk w |}.

(** [archipelago::push_back(a, p, size, seed)] (lines 312-316). *)
Definition archi_push_back (a : algorithm) (p : problem) (pop_size : nat)
    (seed : Z) : M world unit :=
  let! ptr := make_unique_island a p pop_size seed in
  push_back_impl ptr.

(** [boost::numeric_cast<population::size_type>(size)] for a [size] of
    any integral type. *)
Definition numeric_cast_size_type {S : Type} (size : Z) : M S nat :=
  if ((size <? 0) || (Z.of_N size_type_max <? size))%Z
  then throw bad_numeric_cast
  else ret (Z.to_nat size).

(** The loop of [n_ctor] (lines 171-173); [eng] is local to [n_ctor]. *)
Fixpoint n_ctor_loop (n : nat) (eng : mt19937.state) (a : algorithm)
    (p : problem) (size : Z) : M world unit :=
  match n with
  | 0 => ret tt
  | S n' =>
      let! sz := numeric_cast_size_type size in
      let '(s, eng') := mt19937.udist eng in
      let! _ := archi_push_back a p sz s in
      n_ctor_loop n' eng' a p size
  end.

(** [archipelago::n_ctor(n, a, p, size, seed)] with a seed argument
    (lines 162-174): [static_cast<unsigned>(seed)] seeds the engine. *)
Definition n_ctor (n : nat) (a : algorithm) (p : problem) (size seed : Z)
    : M world unit :=
  let eng := mt19937.seed (seed mod 2 ^ 32)%Z in
  n_ctor_loop n eng a p size.

(** [archipelago(n, a, p, size, seed)] (lines 251-255): the members are
    default-initialised, then [n_ctor] runs. A constructor that throws
    leaves no object. *)
Definition archipelago_n (n : nat) (a : algorithm) (p : problem)
    (size seed : Z) (free_store : N) : outcome archipelago :=
  match n_ctor n a p size seed
          {| this := archipelago_default; brk := free_store |} with
  | (Ok _, w) => Ok (this w)
  | (Throw e, _) => Throw e
  | (Undefined, _) => Undefined
  end.

(** The population seeds of the islands, in index order. *)
Definition island_seeds (a : archipelago) : list Z :=
  map (fun ptr => m_seed (isl_pop (ptr_deref ptr))) (m_islands a).

(** *** Deserialization *)

(** The input archive of [load]: each [ar >> v] returns the value read
    and the rest of the archive, or raises. *)
Class Archive (Ar : Type) : Type := {
  read_islands : Ar → user_result (list (unique_ptr island) * Ar);
  read_migrants : Ar → user_result (list individuals_group_t * Ar);
  read_topology : Ar → user_result (topology * Ar)
}.

(** The loop of lines 459-461:
    [tmp_idx_map.emplace(tmp_islands[i].get(), i)] for increasing [i]. *)
Fixpoint map_islands (islands : list (unique_ptr island)) (i : nat)
    (m : gmap N nat) : gmap N nat :=
  match islands with
  | [] => m
  | ptr :: rest => map_islands rest (S i) (emplace (ptr_get ptr) i m)
  end.

(** Modelled from the spec: the move assignment operator
    (archipelago.cpp is missing), which installs the members of [other]
    and does not throw. The wait for ongoing evolutions that precedes it
    is outside this model. *)
Definition move_assign (other : archipelago) : M archipelago unit :=
  put other.

(** [archipelago::load] (lines 441-480). *)
Definition load {Ar : Type} `{!Archive Ar} (ar : Ar) : M archipelago Ar :=
  let tmp := archipelago_default in
  let! r := call (read_islands ar) in
  let '(tmp_islands, ar) := r in
  let tmp_idx_map := map_islands tmp_islands 0 ∅ in
  let! r := call (read_migrants ar) in
  let '(tmp_migrants, ar) := r in
  let! r := call (read_topology ar) in
  let '(tmp_topo, ar) := r in
  let tmp := {| m_islands := tmp_islands; m_idx_map := m_idx_map tmp;
                m_migrants := m_migrants tmp;
                m_topology := m_topology tmp |} in
  let tmp := {| m_islands := m_islands tmp; m_idx_map := tmp_idx_map;
                m_migrants := m_migrants tmp;
                m_topology := m_topology tmp |} in
  let tmp := {| m_islands := m_islands tmp; m_idx_map := m_idx_map tmp;
                m_migrants := tmp_migrants;
                m_topology := m_topology tmp |} in
  let tmp := {| m_islands := m_islands tmp; m_idx_map := m_idx_map tmp;
                m_migrants := m_migrants tmp;
                m_topology := tmp_topo |} in
  let! _ := move_assign tmp in
  ret ar.
End Archipelago.

Arguments island E algorithm : clear implicits.
Arguments archipelago E algorithm topology : clear implicits.
Arguments world E algorithm topology : clear implicits.
Arguments Archive E algorithm topology Ar : clear implicits.

(** ** A statement of the specification that the code does not meet *)

(** "The supplied seed is not passed verbatim to any island ... and these
    derived per-island seeds are pairwise distinct." *)
Definition seeds_derived_and_distinct {E algorithm topology : Type}
    (seed : Z) (a : archipelago E algorithm topology) : Prop :=
  (seed ∉ island_seeds a) ∧ NoDup (island_seeds a).

(** ** Concrete collaborators and inputs

    Instances of the collaborators that are declared outside the sources,
    and the inputs at which the statements below are evaluated. *)
Module Scenario.
Definition zero : double := S754_zero false.
Definition one : double := S754_finite false 1 0.
Definition two : double := S754_finite false 1 1.
Definition three : double := S754_finite false 3 0.

(** By how much constraint [k] of the fitness vector [f] is not met: an
    equality constraint [c] is met when [|c| <= tol], an inequality
    constraint when [c <= tol]. *)
Definition excess (neq : nat) (tol f : vector_double) (k : nat) : double :=
  let c := f !!! (S k) in
  if k <? neq then (if dle (SFabs c) (tol !!! k) then zero else SFabs c)
  else (if dle c (tol !!! k) then zero else c).

(** A stand-in for the utilities. The random decision vector is the lower
    bound; a fitness vector is feasible when all its constraints are met,
    and its aggregated violation is the sum of what they are not met
    by. *)
#[export] Instance utils : Utils := {
  pagmo_decision_vector bounds _ := Returns bounds.1;
  con_feasible neq tol f :=
    forallb (fun k => negb (dlt zero (excess neq tol f k)))
            (seq 0 (length f - 1));
  con_violation neq tol f :=
    foldr (SFadd 53 1024) zero (excess neq tol f <$> seq 0 (length f - 1))
}.

(** The process-wide device is an [mt19937]. *)
#[export] Instance device : RandomDevice mt19937.state := {
  random_device_next := mt19937.next
}.

(** An unconnected topology: the number of its vertices. *)
#[export] Instance unconnected : Topology nat := {
  topology_default := 0;
  topology_push_back t := Returns (S t)
}.

(** One decision variable in [0, 1], one objective [f(x) = x], no
    constraints. *)
Definition line : problem :=
  {| fitness x := Returns x; get_bounds := ([zero], [one]); get_nx := 1;
     get_nobj := 1; get_nec := 0; get_nic := 0 |}.


(** One decision variable, one objective and one inequality constraint:
    [f(x) = (x, x)]. *)
Definition constrained_line : problem :=
  {| fitness x := Returns (x ++ x); get_bounds := ([zero], [one]);
     get_nx := 1; get_nobj := 1; get_nec := 0; get_nic := 1 |}.

Definition empty_population (prob : problem) : population mt19937.state :=
  {| m_prob := prob; m_ID := []; m_x := []; m_f := [];
     m_e := mt19937.seed 42; m_seed := 42 |}.

(** Three individuals with the objectives 2, 1 and 3. *)
Definition trio : population mt19937.state :=
  {| m_prob := line; m_ID := [11; 12; 13]%Z;
     m_x := [[two]; [one]; [three]]; m_f := [[two]; [one]; [three]];
     m_e := mt19937.seed 42; m_seed := 42 |}.


(** An archive of three optional entries: a missing entry fails to load. *)
Record archive : Type := {
  ar_islands : option (list (unique_ptr (island mt19937.state unit)));
  ar_migrants : option (list individuals_group_t);
  ar_topology : option nat
}.

#[export] Instance archive_reader : Archive mt19937.state unit nat archive := {
  read_islands ar :=
    match ar_islands ar with Some v => Returns (v, ar) | None => Raises 1 end;
  read_migrants ar :=
    match ar_migrants ar with Some v => Returns (v, ar) | None => Raises 2 end;
  read_topology ar :=
    match ar_topology ar with Some v => Returns (v, ar) | None => Raises 3 end
}.

Definition stored_island (addr : N) (seed : Z)
    : unique_ptr (island mt19937.state unit) :=
  {| ptr_get := addr;
     ptr_deref := {| isl_algo := tt;
                     isl_pop := {| m_prob := line; m_ID := []; m_x := [];
                                   m_f := []; m_e := mt19937.seed seed;
                                   m_seed := seed |} |} |}.

Definition complete_archive : archive :=
  {| ar_islands := Some [stored_island 4096 1; stored_island 8192 2];
     ar_migrants := Some [([], [], []); ([], [], [])];
     ar_topology := Some 2 |}.

(** The same archive without its last entry, the topology. *)
Definition truncated_archive : archive :=
  {| ar_islands := ar_islands complete_archive;
     ar_migrants := ar_migrants complete_archive;
     ar_topology := None |}.

(** An archipelago of one island, the target of the loads. *)
Definition lone_island : archipelago mt19937.state unit nat :=
  {| m_islands := [stored_island 1024 7];
     m_idx_map := {[ 1024%N := 0 ]};
     m_migrants := [([], [], [])];
     m_topology := 1 |}.
End Scenario.

(** ** Further operations of the population *)

Section PopulationMore.
Context {E : Type} `{!RandomEngine E} `{!Utils}.

(** [population::champion(double tol)] (lines 208-212): the scalar
    tolerance is broadcast to a vector of [nf - 1] entries. *)
Definition champion_scalar (tol : double) : M (population E) nat :=
  let! p := get in
  let tol_vector := replicate (get_nf (m_prob p) - 1) tol in
  champion tol_vector.

(** Every stored fitness vector is the fitness of its decision vector. *)
Definition fitness_consistent (p : population E) : Prop :=
  Forall2 (fun x f => fitness (m_prob p) x = Returns f) (m_x p) (m_f p).

(** What the loop of the constructor draws from an engine [e] for [n]
    individuals, in the order of the draws: for each individual the 32
    bit value that seeds its random decision vector, and then the 64 bit
    value that becomes its ID. *)
Fixpoint ctor_draws (n : nat) (e : E) : list (Z * Z) :=
  match n with
  | 0 => []
  | S n' =>
      let '(s, e1) := uniform_u32 e in
      let '(id, e2) := uniform_u64 e1 in
      (s, id) :: ctor_draws n' e2
  end.
End PopulationMore.

(** ** Numerical utilities: sparsity and gradient estimation

    The three function templates of the utilities header that follows the
    archipelago in the sources. [Func] is any callable from a decision
    vector to a fitness vector; it may raise. *)

(** Arithmetic of [double], IEEE 754 binary64 with rounding to nearest. *)
Definition dadd : double → double → double := SFadd 53 1024.
Definition dsub : double → double → double := SFsub 53 1024.
Definition dmul : double → double → double := SFmul 53 1024.
Definition ddiv : double → double → double := SFdiv 53 1024.
(** [std::abs] *)
Definition dabs : double → double := SFabs.
(** [std::max(a, b)]: [(a < b) ? b : a]. *)
Definition dmax (a b : double) : double := if dlt a b then b else a.
(** [a != b] *)
Definition dne (a b : double) : bool := negb (SFeqb a b).

(** The literals of the three functions. *)
Definition d0 : double := S754_zero false.
Definition d1 : double := S754_finite false 4503599627370496 (-52).
Definition d2 : double := S754_finite false 4503599627370496 (-51).
Definition d3 : double := S754_finite false 6755399441055744 (-51).
Definition d4 : double := S754_finite false 4503599627370496 (-50).
Definition d6 : double := S754_finite false 6755399441055744 (-50).
Definition d10 : double := S754_finite false 5629499534213120 (-49).
Definition d15 : double := S754_finite false 8444249301319680 (-49).
(** The default arguments [dx = 1e-8] and [dx = 1e-2]. *)
Definition dx_1em8 : double := S754_finite false 6044629098073146 (-79).
Definition dx_1em2 : double := S754_finite false 5764607523034235 (-59).

(** [sparsity_pattern]: a vector of pairs (fitness component, variable). *)
Abbreviation sparsity_pattern := (list (nat * nat)) (only parsing).

(** [operator<=] of [std::pair]: the lexicographic order. *)
Definition pair_le (a b : nat * nat) : Prop :=
  a.1 < b.1 ∨ (a.1 = b.1 ∧ a.2 ≤ b.2).

#[export] Instance pair_le_dec (a b : nat * nat) : Decision (pair_le a b).
Proof. unfold pair_le. apply _. Defined.

(** [std::sort(first, last)]: the sorted permutation of the range, which
    is unique because the order on pairs of indices is total and
    antisymmetric. *)
Definition std_sort (l : sparsity_pattern) : sparsity_pattern :=
  merge_sort pair_le l.

(** The step [max(|x[j]|, 1.0) * dx] by which variable [j] is moved. *)
Definition step (x : vector_double) (dx : double) (j : nat) : double :=
  dmul (dmax (dabs (x !!! j)) d1) dx.

Definition sparsity_msg : string :=
  "Change in fitness size detected around the reference point. Cannot estimate a sparisty.".

Definition gradient_msg : string :=
  "Change in the size of the returned vector detected around the reference point. Cannot compute a gradient".

(** The inner loop of [estimate_sparsity] (lines 595-599):
    [if (f_new[i] != f0[i]) retval.push_back({i, j})] for increasing [i]. *)
Definition sparsity_column (f0 f_new : vector_double) (j : nat)
    (retval : sparsity_pattern) : sparsity_pattern :=
  fold_left (fun retval i =>
               if dne (f_new !!! i) (f0 !!! i) then retval ++ [(i, j)]
               else retval)
            (seq 0 (length f_new)) retval.

(** The outer loop of [estimate_sparsity] (lines 588-601) over the
    variables [js], with its local variables [x_new] and [retval]. *)
Fixpoint sparsity_loop (fitness : vector_double → user_result vector_double)
    (x : vector_double) (dx : double) (f0 : vector_double) (js : list nat)
    (x_new : vector_double) (retval : sparsity_pattern)
    : outcome (vector_double * sparsity_pattern) :=
  match js with
  | [] => Ok (x_new, retval)
  | j :: js' =>
      let x_new := <[j := dadd (x !!! j) (step x dx j)]> x_new in
      match fitness x_new with
      | Raises k => Throw (unspecified k)
      | Returns f_new =>
          if negb (length f_new =? length f0) then
            Throw (invalid_argument sparsity_msg)
          else
            let retval := sparsity_column f0 f_new j retval in
            let x_new := <[j := x !!! j]> x_new in
            sparsity_loop fitness x dx f0 js' x_new retval
      end
  end.

(** [pagmo::estimate_sparsity(fitness, x, dx)] (lines 581-605). *)
Definition estimate_sparsity
    (fitness : vector_double → user_result vector_double)
    (x : vector_double) (dx : double) : outcome sparsity_pattern :=
  match fitness x with
  | Raises k => Throw (unspecified k)
  | Returns f0 =>
      let x_new := x in
      let retval := [] in
      match sparsity_loop fitness x dx f0 (seq 0 (length x)) x_new retval with
      | Ok (_, retval) => Ok (std_sort retval)
      | Throw e => Throw e
      | Undefined => Undefined
      end
  end.

(** The inner loop of [estimate_gradient] (lines 656-658):
    [gradient[j + i * x.size()] = (f_r[i] - f_l[i]) / 2. / h]. *)
Definition gradient_column (f_r f_l : vector_double) (h : double)
    (n j : nat) (gradient : vector_double) : vector_double :=
  fold_left (fun gradient i =>
               <[j + i * n :=
                   ddiv (ddiv (dsub (f_r !!! i) (f_l !!! i)) d2) h]> gradient)
            (seq 0 (length f_r)) gradient.

(** The outer loop of [estimate_gradient] (lines 646-661), with its local
    variables [x_r], [x_l] and [gradient]. *)
Fixpoint gradient_loop (f : vector_double → user_result vector_double)
    (x : vector_double) (dx : double) (f0 : vector_double) (js : list nat)
    (x_r x_l gradient : vector_double)
    : outcome (vector_double * vector_double * vector_double) :=
  match js with
  | [] => Ok (x_r, x_l, gradient)
  | j :: js' =>
      let h := step x dx j in
      let x_r := <[j := dadd (x !!! j) h]> x_r in
      let x_l := <[j := dsub (x !!! j) h]> x_l in
      match f x_r with
      | Raises k => Throw (unspecified k)
      | Returns f_r =>
          match f x_l with
          | Raises k => Throw (unspecified k)
          | Returns f_l =>
              if negb (length f_r =? length f0)
                 || negb (length f_l =? length f0) then
                Throw (invalid_argument gradient_msg)
              else
                let gradient :=
                  gradient_column f_r f_l h (length x) j gradient in
                let x_r := <[j := x !!! j]> x_r in
                let x_l := <[j := x !!! j]> x_l in
                gradient_loop f x dx f0 js' x_r x_l gradient
          end
      end
  end.

(** [pagmo::estimate_gradient(f, x, dx)] (lines 639-663). *)
Definition estimate_gradient (f : vector_double → user_result vector_double)
    (x : vector_double) (dx : double) : outcome vector_double :=
  match f x with
  | Raises k => Throw (unspecified k)
  | Returns f0 =>
      let gradient := replicate (length f0 * length x) d0 in
      match gradient_loop f x dx f0 (seq 0 (length x)) x x gradient with
      | Ok (_, _, gradient) => Ok gradient
      | Throw e => Throw e
      | Undefined => Undefined
      end
  end.

(** The vector [x] with variable [j] set to [v]: what [x_new], [x_r],
    [x_l], ... hold when the function is evaluated. *)
Definition moved (x : vector_double) (j : nat) (v : double) : vector_double :=
  <[j := v]> x.

(** The value of one entry of [estimate_gradient_h] (lines 732-738). *)
Definition gradient_h_entry (f_r1 f_l1 f_r2 f_l2 f_r3 f_l3 : vector_double)
    (h : double) (i : nat) : double :=
  let m1 := ddiv (dsub (f_r1 !!! i) (f_l1 !!! i)) d2 in
  let m2 := ddiv (dsub (f_r2 !!! i) (f_l2 !!! i)) d4 in
  let m3 := ddiv (dsub (f_r3 !!! i) (f_l3 !!! i)) d6 in
  let fifteen_m1 := dmul d15 m1 in
  let six_m2 := dmul d6 m2 in
  let ten_h := dmul d10 h in
  ddiv (dadd (dsub fifteen_m1 six_m2) m3) ten_h.

(** The inner loop of [estimate_gradient_h] (lines 731-739). *)
Definition gradient_h_column (f_r1 f_l1 f_r2 f_l2 f_r3 f_l3 : vector_double)
    (h : double) (n j : nat) (gradient : vector_double) : vector_double :=
  fold_left (fun gradient i =>
               <[j + i * n :=
                   gradient_h_entry f_r1 f_l1 f_r2 f_l2 f_r3 f_l3 h i]>
                 gradient)
            (seq 0 (length f_r1)) gradient.

(** The six local vectors of [estimate_gradient_h]. *)
Record stencil : Type := {
  x_r1 : vector_double; x_l1 : vector_double;
  x_r2 : vector_double; x_l2 : vector_double;
  x_r3 : vector_double; x_l3 : vector_double
}.

(** Lines 714-719: variable [j] of the six vectors is moved. *)
Definition stencil_move (x : vector_double) (h : double) (j : nat)
    (s : stencil) : stencil :=
  {| x_r1 := <[j := dadd (x !!! j) h]> (x_r1 s);
     x_l1 := <[j := dsub (x !!! j) h]> (x_l1 s);
     x_r2 := <[j := dadd (x !!! j) (dmul d2 h)]> (x_r2 s);
     x_l2 := <[j := dsub (x !!! j) (dmul d2 h)]> (x_l2 s);
     x_r3 := <[j := dadd (x !!! j) (dmul d3 h)]> (x_r3 s);
     x_l3 := <[j := dsub (x !!! j) (dmul d3 h)]> (x_l3 s) |}.

(** Lines 740-745: variable [j] of the six vectors is restored. *)
Definition stencil_restore (x : vector_double) (j : nat) (s : stencil)
    : stencil :=
  {| x_r1 := <[j := x !!! j]> (x_r1 s); x_l1 := <[j := x !!! j]> (x_l1 s);
     x_r2 := <[j := x !!! j]> (x_r2 s); x_l2 := <[j := x !!! j]> (x_l2 s);
     x_r3 := <[j := x !!! j]> (x_r3 s); x_l3 := <[j := x !!! j]> (x_l3 s) |}.

(** The six evaluations of lines 720-725, in their order; the first one
    that raises ends the call. *)
Definition stencil_eval (f : vector_double → user_result vector_double)
    (s : stencil) : user_result (list vector_double) :=
  match f (x_r1 s) with
  | Raises k => Raises k
  | Returns f_r1 =>
  match f (x_l1 s) with
  | Raises k => Raises k
  | Returns f_l1 =>
  match f (x_r2 s) with
  | Raises k => Raises k
  | Returns f_r2 =>
  match f (x_l2 s) with
  | Raises k => Raises k
  | Returns f_l2 =>
  match f (x_r3 s) with
  | Raises k => Raises k
  | Returns f_r3 =>
  match f (x_l3 s) with
  | Raises k => Raises k
  | Returns f_l3 => Returns [f_r1; f_l1; f_r2; f_l2; f_r3; f_l3]
  end end end end end end.

(** The points at which the functions evaluate: [x] with variable [j]
    moved forward or backward by one step, or by [c] steps. *)
Definition forward (x : vector_double) (dx : double) (j : nat)
    : vector_double :=
  moved x j (dadd (x !!! j) (step x dx j)).
Definition backward (x : vector_double) (dx : double) (j : nat)
    : vector_double :=
  moved x j (dsub (x !!! j) (step x dx j)).
Definition forward_by (c : double) (x : vector_double) (dx : double)
    (j : nat) : vector_double :=
  moved x j (dadd (x !!! j) (dmul c (step x dx j))).
Definition backward_by (c : double) (x : vector_double) (dx : double)
    (j : nat) : vector_double :=
  moved x j (dsub (x !!! j) (dmul c (step x dx j))).

(** The six vectors of [estimate_gradient_h] while the loop is between two
    variables: all equal to [x]. *)
Definition stencil_at_rest (x : vector_double) : stencil :=
  {| x_r1 := x; x_l1 := x; x_r2 := x; x_l2 := x; x_r3 := x; x_l3 := x |}.

(** The six points at which [estimate_gradient_h] evaluates for variable
    [j], in the order of the evaluations. *)
Definition stencil_points (x : vector_double) (dx : double) (j : nat)
    : list vector_double :=
  [forward x dx j; backward x dx j; forward_by d2 x dx j;
   backward_by d2 x dx j; forward_by d3 x dx j; backward_by d3 x dx j].

(** The outer loop of [estimate_gradient_h] (lines 712-746). *)
Fixpoint gradient_h_loop (f : vector_double → user_result vector_double)
    (x : vector_double) (dx : double) (f0 : vector_double) (js : list nat)
    (s : stencil) (gradient : vector_double)
    : outcome (stencil * vector_double) :=
  match js with
  | [] => Ok (s, gradient)
  | j :: js' =>
      let h := step x dx j in
      let s := stencil_move x h j s in
      match stencil_eval f s with
      | Raises k => Throw (unspecified k)
      | Returns fs =>
          if forallb (fun f_new => length f_new =? length f0) fs then
            let gradient :=
              gradient_h_column (fs !!! 0) (fs !!! 1) (fs !!! 2) (fs !!! 3)
                (fs !!! 4) (fs !!! 5) h (length x) j gradient in
            gradient_h_loop f x dx f0 js' (stencil_restore x j s) gradient
          else Throw (invalid_argument gradient_msg)
      end
  end.

(** [pagmo::estimate_gradient_h(f, x, dx)] (lines 703-748). *)
Definition estimate_gradient_h (f : vector_double → user_result vector_double)
    (x : vector_double) (dx : double) : outcome vector_double :=
  match f x with
  | Raises k => Throw (unspecified k)
  | Returns f0 =>
      let gradient := replicate (length f0 * length x) d0 in
      let s := stencil_at_rest x in
      match gradient_h_loop f x dx f0 (seq 0 (length x)) s gradient with
      | Ok (_, gradient) => Ok gradient
      | Throw e => Throw e
      | Undefined => Undefined
      end
  end.

(** ** Further concrete inputs *)
Module Fixtures.
Import Scenario.

(** Three individuals with the objectives 2, 1 and 1: a tie for the
    smallest one. *)
Definition tied : population mt19937.state :=
  {| m_prob := line; m_ID := [31; 32; 33]%Z;
     m_x := [[d2]; [d1]; [d1]]; m_f := [[d2]; [d1]; [d1]];
     m_e := mt19937.seed 42; m_seed := 42 |}.

(** Three individuals with the objectives NaN, 1 and 0.5. *)
Definition nan_first : population mt19937.state :=
  {| m_prob := line; m_ID := [41; 42; 43]%Z;
     m_x := [[S754_nan]; [d1]; [S754_finite false 4503599627370496 (-53)]];
     m_f := [[S754_nan]; [d1]; [S754_finite false 4503599627370496 (-53)]];
     m_e := mt19937.seed 42; m_seed := 42 |}.

(** A decision vector that depends on its seed: the lower bound for an
    even seed and the upper bound for an odd one. *)
Definition scattered : Utils :=
  {| pagmo_decision_vector bounds s :=
       Returns (if Z.even s then bounds.1 else bounds.2);
     con_feasible := con_feasible;
     con_violation := con_violation |}.

(** A problem with the bounds of [line] and a constant fitness. *)
Definition flat : problem :=
  {| fitness _ := Returns [d1]; get_bounds := get_bounds line; get_nx := 1;
     get_nobj := 1; get_nec := 0; get_nic := 0 |}.

(** The point [(1, 2)]. *)
Definition point : vector_double := [d1; d2].

(** [f(x) = (x_0, ..., x_(n-1), 1)]: every variable moves its own
    component, and the last component is constant. *)
Definition shifted (x : vector_double) : user_result vector_double :=
  Returns (x ++ [d1]).

(** A function whose fitness has one component at [x_0 = 1] and two
    elsewhere. *)
Definition resizing (x : vector_double) : user_result vector_double :=
  if SFeqb (x !!! 0) d1 then Returns [d1] else Returns [d1; d1].
End Fixtures.

(** * Properties *)

(** ** Order on [double] *)

Local Ltac case_compare :=
  repeat match goal with
    | |- context [(?a ?= ?b)%Z] => destruct (Z.compare_spec a b)
    | |- context [(?a ?= ?b)%positive] => destruct (Pos.compare_spec a b)
    | H : context [(?a ?= ?b)%Z] |- _ => destruct (Z.compare_spec a b)
    | H : context [(?a ?= ?b)%positive] |- _ => destruct (Pos.compare_spec a b)
    end.

Local Ltac by_sfcompare :=
  unfold dlt, dle, SFltb, SFleb, SFcompare;
  repeat match goal with
    | x : double |- _ => destruct x as [[]|[]| |[] ? ?]
    end;
  simpl; try congruence;
  change (PosDef.Pos.compare_cont Eq) with Pos.compare;
  intros; case_compare; simpl in *; try congruence; try lia.

Lemma dlt_irrefl (a : double) : dlt a a = false.
Proof. by_sfcompare. Qed.

Lemma dlt_trans (a b c : double) :
  dlt a b = true → dlt b c = true → dlt a c = true.
Proof. revert a b c. intros a b c. by_sfcompare. Qed.

Lemma dlt_nan_l (a : double) : dlt S754_nan a = false.
Proof. reflexivity. Qed.

Lemma dlt_nan_r (a : double) : dlt a S754_nan = false.
Proof. by destruct a. Qed.

(** Without NaN the order is total: "not greater" is "less or equal". *)
Lemma dle_of_not_dlt (a b : double) :
  is_nan a = false → is_nan b = false → dlt b a = false → dle a b = true.
Proof. by_sfcompare. Qed.

(** On vectors of one component the lexicographic order is the order of
    the components. *)
Lemma vec_lt_singleton (a b : double) : vec_lt [a] [b] = dlt a b.
Proof. simpl. destruct (dlt a b), (dlt b a); reflexivity. Qed.

(** ** [std::min_element] *)

Section MinElement.
Context {A : Type} (comp : A → A → bool) (P : A → Prop).
Hypothesis comp_irrefl : ∀ a, P a → comp a a = false.
Hypothesis comp_trans : ∀ a b c, P a → P b → P c →
  comp a b = true → comp b c = true → comp a c = true.

(** The result is the start or strictly below it, it is an element of the
    range, and no element of the range is strictly below it. *)
Lemma min_element_from_minimal (rest : list A) (s : A) :
  P s → Forall P rest →
  let r := min_element_from comp s rest in
  (r = s ∨ comp r s = true) ∧ r ∈ s :: rest ∧
  ∀ y, y ∈ s :: rest → comp y r = false.
Proof.
  revert s. induction rest as [|y rest IH]; intros s Hs Hrest; simpl.
  - split; [by left|]. split; [apply list_elem_of_here|].
    intros z Hz. apply list_elem_of_singleton in Hz as ->. by apply comp_irrefl.
  - apply Forall_cons in Hrest as [Hy Hrest].
    destruct (comp y s) eqn:Hys.
    + destruct (IH y Hy Hrest) as (Hle & Hin & Hmin).
      assert (Hr : P (min_element_from comp y rest)).
      { apply elem_of_cons in Hin as [->|Hin]; [done|].
        by eapply Forall_forall in Hrest. }
      split; [|split].
      * right. destruct Hle as [Heq|Hle]; [by rewrite Heq|].
        by apply (comp_trans _ y s).
      * by apply list_elem_of_further.
      * intros z Hz. apply elem_of_cons in Hz as [->|Hz]; [|by apply Hmin].
        destruct (comp s (min_element_from comp y rest)) eqn:Hsr; [|done].
        assert (Hyr : comp y (min_element_from comp y rest) = true)
          by (by apply (comp_trans y s)).
        rewrite Hmin in Hyr; [done|apply list_elem_of_here].
    + destruct (IH s Hs Hrest) as (Hle & Hin & Hmin).
      assert (Hr : P (min_element_from comp s rest)).
      { apply elem_of_cons in Hin as [->|Hin]; [done|].
        by eapply Forall_forall in Hrest. }
      split; [done|]. split.
      { apply elem_of_cons in Hin as [->|Hin]; [apply list_elem_of_here|].
        by do 2 apply list_elem_of_further. }
      intros z Hz. apply elem_of_cons in Hz as [->|Hz];
        [apply Hmin, list_elem_of_here|].
      apply elem_of_cons in Hz as [->|Hz];
        [|by apply Hmin, list_elem_of_further].
      destruct (comp y (min_element_from comp s rest)) eqn:Hyr; [|done].
      destruct Hle as [Heq|Hle]; [by rewrite Heq, Hys in Hyr|].
      assert (comp y s = true)
        by (by apply (comp_trans y (min_element_from comp s rest) s)).
      congruence.
Qed.
End MinElement.

(** ** Range of [std::mt19937] *)

Lemma in32_land_ones z : in32 z ↔ Z.land z (Z.ones 32) = z.
Proof.
  unfold in32. rewrite Z.land_ones by lia. split.
  - intros Hz. by apply Z.mod_small.
  - intros <-. apply Z.mod_pos_bound. lia.
Qed.

Lemma land_lxor_distr_l (a b c : Z) :
  Z.land (Z.lxor a b) c = Z.lxor (Z.land a c) (Z.land b c).
Proof.
  apply Z.bits_inj'. intros n Hn.
  rewrite !Z.land_spec, !Z.lxor_spec, !Z.land_spec.
  by destruct (Z.testbit a n), (Z.testbit b n), (Z.testbit c n).
Qed.

Lemma in32_lxor a b : in32 a → in32 b → in32 (Z.lxor a b).
Proof.
  rewrite !in32_land_ones. intros Ha Hb.
  by rewrite land_lxor_distr_l, Ha, Hb.
Qed.

Lemma in32_lor a b : in32 a → in32 b → in32 (Z.lor a b).
Proof.
  rewrite !in32_land_ones. intros Ha Hb.
  by rewrite Z.land_lor_distr_l, Ha, Hb.
Qed.

Lemma in32_land_r a m : in32 m → in32 (Z.land a m).
Proof.
  rewrite !in32_land_ones. intros Hm. by rewrite <- Z.land_assoc, Hm.
Qed.

Lemma in32_shiftr a k : (0 ≤ k)%Z → in32 a → in32 (Z.shiftr a k).
Proof.
  unfold in32. intros Hk [Ha Hb]. rewrite Z.shiftr_div_pow2 by done.
  assert (0 < 2 ^ k)%Z by (apply Z.pow_pos_nonneg; lia).
  split; [apply Z.div_pos; lia|].
  apply Z.div_lt_upper_bound; [done|]. nia.
Qed.

Lemma in32_temper y : in32 y → in32 (mt19937.temper y).
Proof.
  intros Hy. unfold mt19937.temper.
  repeat first
    [ apply in32_lxor | apply in32_land_r | apply in32_shiftr
    | done | lia | (unfold in32; lia) ].
Qed.

Lemma in32_lookup_total (l : list Z) i : Forall in32 l → in32 (l !!! i).
Proof.
  intros Hl. destruct (l !! i) as [z|] eqn:Hi.
  - rewrite (list_lookup_total_correct _ _ _ Hi).
    by eapply Forall_lookup_1.
  - rewrite list_lookup_total_alt, Hi. simpl. unfold in32. simpl. lia.
Qed.

Lemma in32_twist_at x k : Forall in32 x → Forall in32 (mt19937.twist_at x k).
Proof.
  intros Hx. unfold mt19937.twist_at. apply Forall_insert; [done|].
  repeat first
    [ apply in32_lxor | apply in32_lor | apply in32_land_r
    | apply in32_shiftr | by apply in32_lookup_total | lia ].
  all: try (unfold in32, mt19937.upper_mask, mt19937.lower_mask; lia).
  destruct (Z.odd _); unfold in32, mt19937.xor_mask; lia.
Qed.

Lemma in32_twist x : Forall in32 x → Forall in32 (mt19937.twist x).
Proof.
  unfold mt19937.twist. generalize (seq 0 mt19937.state_size).
  intros ks. revert x. induction ks as [|k ks IH]; intros x Hx; [done|].
  simpl. by apply IH, in32_twist_at.
Qed.

Lemma in32_seed value : Forall in32 (mt19937.mt (mt19937.seed value)).
Proof.
  assert (Hwrap : ∀ z, in32 (mt19937.wrap z)).
  { intros z. unfold in32, mt19937.wrap, mt19937.word_size.
    apply Z.mod_pos_bound. lia. }
  change (mt19937.mt (mt19937.seed value))
    with (mt19937.wrap value
          :: mt19937.seed_words (mt19937.state_size - 1) (mt19937.wrap value) 1).
  apply Forall_cons. split; [apply Hwrap|].
  generalize (mt19937.wrap value) 1%Z (mt19937.state_size - 1).
  intros prev i k. revert prev i.
  induction k as [|k IH]; intros prev i; [by apply Forall_nil|].
  cbn [mt19937.seed_words]. apply Forall_cons. split; [apply Hwrap|apply IH].
Qed.

Lemma in32_next e :
  Forall in32 (mt19937.mt e) →
  in32 (mt19937.next e).1 ∧ Forall in32 (mt19937.mt (mt19937.next e).2).
Proof.
  intros He. unfold mt19937.next.
  destruct (mt19937.state_size <=? mt19937.mti e);
    cbn [fst snd mt19937.mt mt19937.mti].
  - split; [apply in32_temper, in32_lookup_total|]; by apply in32_twist.
  - split; [by apply in32_temper, in32_lookup_total|done].
Qed.

Lemma in32_draws n e :
  Forall in32 (mt19937.mt e) → Forall in32 (mt19937.draws n e).
Proof.
  revert e. induction n as [|n IH]; intros e He; [by apply Forall_nil|].
  cbn [mt19937.draws]. unfold mt19937.udist.
  destruct (in32_next e He) as [Hv He'].
  destruct (mt19937.next e) as [v e']. cbn [fst snd] in Hv, He'.
  apply Forall_cons. split; [done|]. by apply IH.
Qed.

(** Among more than [2^32] values of 32 bits two are equal. *)
Lemma in32_NoDup_length (l : list Z) :
  Forall in32 l → NoDup l → (Z.of_nat (length l) ≤ 2 ^ 32)%Z.
Proof.
  intros Hl Hnd.
  assert (Hsub : l ⊆+ Z.of_nat <$> seq 0 (Z.to_nat (2 ^ 32))).
  { apply NoDup_submseteq; [done|]. intros x Hx.
    assert (Hx32 : in32 x) by (by eapply Forall_forall in Hl).
    unfold in32 in Hx32. apply list_elem_of_fmap. exists (Z.to_nat x).
    split; [lia|]. apply elem_of_seq. lia. }
  apply submseteq_length in Hsub.
  rewrite length_fmap, length_seq in Hsub. lia.
Qed.

(** ** The population *)

Section PopulationProperties.
Context {E : Type} `{!RandomEngine E} `{!Utils}.
Implicit Types (p : population E) (x f : vector_double).

(** [push_back] in one piece: the ID is drawn first, then the fitness is
    computed, then the two dimensions are checked. *)
Lemma push_back_unfold x p :
  push_back x p =
    let id := (uniform_u64 (m_e p)).1 in
    let p1 := with_engine p (uniform_u64 (m_e p)).2 in
    match fitness (m_prob p) x with
    | Raises k => (Throw (unspecified k), p1)
    | Returns f =>
        if negb (length x =? get_nx (m_prob p)) then
          (Throw (invalid_argument
                    (push_back_x_msg (length x) (get_nx (m_prob p)))), p1)
        else if negb (length f =? get_nf (m_prob p)) then
          (Throw (invalid_argument
                    (push_back_f_msg (length f) (get_nf (m_prob p)))), p1)
        else (Ok tt, appended p1 id x f)
    end.
Proof.
  unfold push_back, bind, draw, get, call, with_engine, appended.
  destruct (uniform_u64 (m_e p)) as [id e']. simpl.
  destruct (fitness (m_prob p) x) as [f|k]; simpl; [|done].
  destruct (length x =? get_nx (m_prob p)); simpl; [|done].
  destruct (length f =? get_nf (m_prob p)); simpl; done.
Qed.

(** C1. When [push_back(x)] succeeds, each of the three sequences grows by
    exactly one element; the appended individual has the decision vector
    [x], the fitness vector [problem.fitness(x)] and the ID that was drawn
    from the engine of the population, which has advanced by that draw;
    the individuals stored before are unchanged, and so are the problem
    and the seed. Read back as triples: every individual of [p] is found
    at the same index of [p'], and on aligned sequences the individual at
    the old size is [(id, x, f)]. *)
Theorem push_back_appends x p p' :
  push_back x p = (Ok tt, p') →
  ∃ f, fitness (m_prob p) x = Returns f ∧
    let id := (uniform_u64 (m_e p)).1 in
    (length (m_ID p') = S (length (m_ID p)) ∧
     length (m_x p') = S (length (m_x p)) ∧
     length (m_f p') = S (length (m_f p))) ∧
    (last (m_ID p') = Some id ∧ last (m_x p') = Some x ∧
     last (m_f p') = Some f) ∧
    (take (length (m_ID p)) (m_ID p') = m_ID p ∧
     take (length (m_x p)) (m_x p') = m_x p ∧
     take (length (m_f p)) (m_f p') = m_f p) ∧
    (∀ i t, individual p i = Some t → individual p' i = Some t) ∧
    (aligned p = true →
     individual p' (length (m_ID p)) = Some (id, x, f)) ∧
    m_e p' = (uniform_u64 (m_e p)).2 ∧
    m_prob p' = m_prob p ∧ m_seed p' = m_seed p.
Proof.
  rewrite push_back_unfold. simpl.
  destruct (fitness (m_prob p) x) as [f|k]; [|done].
  destruct (negb (length x =? get_nx (m_prob p))); [done|].
  destruct (negb (length f =? get_nf (m_prob p))); [done|].
  intros [= <-]. exists f. split; [done|]. simpl.
  rewrite !length_app, !last_snoc, !take_app_length. simpl.
  split; [repeat split; lia|]. split; [done|]. split; [done|].
  split; [|split; [|done]].
  - intros i t. unfold individual. simpl.
    destruct (m_ID p !! i) as [id|] eqn:HID; [|done].
    destruct (m_x p !! i) as [xi|] eqn:Hx; [|done].
    destruct (m_f p !! i) as [fi|] eqn:Hf; [|done].
    by rewrite (lookup_app_l_Some _ _ _ _ HID), (lookup_app_l_Some _ _ _ _ Hx),
      (lookup_app_l_Some _ _ _ _ Hf).
  - unfold aligned, individual. simpl. intros Hal.
    apply andb_true_iff in Hal as [Hf Hx].
    apply Nat.eqb_eq in Hf, Hx.
    rewrite list_lookup_middle by done.
    rewrite list_lookup_middle by done.
    by rewrite list_lookup_middle.
Qed.


(** The engine is [mutable] and the ID is drawn before anything is
    checked: it has advanced by that draw also when [push_back] fails. *)
Lemma push_back_failure_engine x p :
  is_ok (push_back x p).1 = false →
  m_e (push_back x p).2 = (uniform_u64 (m_e p)).2.
Proof.
  rewrite push_back_unfold. simpl.
  destruct (fitness (m_prob p) x) as [f|k]; [|done].
  destruct (negb (length x =? get_nx (m_prob p))); [done|].
  by destruct (negb (length f =? get_nf (m_prob p))).
Qed.

(** *** The invariant *)

Lemma pop_inv_with_engine p e : pop_inv p → pop_inv (with_engine p e).
Proof. done. Qed.

Lemma pop_inv_appended p id x f :
  pop_inv p → length x = get_nx (m_prob p) → length f = get_nf (m_prob p) →
  pop_inv (appended p id x f).
Proof.
  intros (Hx & Hf & Hxs & Hfs) Hlx Hlf. unfold pop_inv. simpl.
  rewrite !length_app, !Forall_app, !Forall_singleton. simpl.
  repeat split; try done; lia.
Qed.

Lemma push_back_pop_inv x p : pop_inv p → pop_inv (push_back x p).2.
Proof.
  intros Hinv. rewrite push_back_unfold. simpl.
  destruct (fitness (m_prob p) x) as [f|k]; [|done].
  destruct (Nat.eqb_spec (length x) (get_nx (m_prob p))); simpl; [|done].
  destruct (Nat.eqb_spec (length f) (get_nf (m_prob p))); simpl; [|done].
  by apply pop_inv_appended.
Qed.

Lemma decision_vector_unfold p :
  decision_vector p =
    let s := (uniform_u32 (m_e p)).1 in
    let p1 := with_engine p (uniform_u32 (m_e p)).2 in
    match pagmo_decision_vector (get_bounds (m_prob p)) s with
    | Returns x => (Ok x, p1)
    | Raises k => (Throw (unspecified k), p1)
    end.
Proof.
  unfold decision_vector, bind, draw, get, call, with_engine.
  destruct (uniform_u32 (m_e p)) as [s e']. simpl.
  by destruct (pagmo_decision_vector _ _).
Qed.

(** A loop keeps what its body keeps, whatever the outcome. *)
Lemma for_loop_preserves {S : Type} (I : S → Prop) (body : M S unit) n s :
  (∀ s, I s → I (body s).2) → I s → I (for_loop n body s).2.
Proof.
  intros Hbody. revert s. induction n as [|n IH]; intros s Hs; [done|].
  simpl. unfold bind. specialize (Hbody s Hs).
  destruct (body s) as [[[]|e|] s']; simpl in *; auto.
Qed.

Lemma for_loop_S {S : Type} (body : M S unit) n s :
  for_loop (Datatypes.S n) body s =
    match body s with
    | (Ok _, s') => for_loop n body s'
    | (Throw e, s') => (Throw e, s')
    | (Undefined, s') => (Undefined, s')
    end.
Proof. reflexivity. Qed.

Lemma ctor_body_pop_inv p :
  pop_inv p → pop_inv ((let! x := decision_vector in push_back x) p).2.
Proof.
  intros Hinv. unfold bind. rewrite decision_vector_unfold. simpl.
  destruct (pagmo_decision_vector _ _) as [x|k]; [|done].
  by apply push_back_pop_inv, pop_inv_with_engine.
Qed.

Lemma population_ctor_pop_inv prob n seed pop :
  population_ctor prob n seed = Ok pop → pop_inv pop.
Proof.
  unfold population_ctor.
  set (init := {| m_prob := prob; m_ID := []; m_x := []; m_f := [];
                  m_e := engine_seed (seed mod 2 ^ 32)%Z;
                  m_seed := (seed mod 2 ^ 32)%Z |}).
  assert (Hinit : pop_inv init) by (by repeat split).
  pose proof (for_loop_preserves pop_inv
                (let! x := decision_vector in push_back x) n init
                ctor_body_pop_inv Hinit) as Hloop.
  destruct (for_loop _ _ init) as [[[]|e|] pop']; intros [= <-]; done.
Qed.

(** *** [set_xf] and [set_x] *)

Lemma std_copy_same_length {A : Type} (src dst : list A) :
  length dst = length src → std_copy src dst = src.
Proof.
  intros Hlen. unfold std_copy. rewrite drop_ge by lia. apply app_nil_r.
Qed.

Lemma size_unfold p :
  size p = (if aligned p then Ok (length (m_ID p)) else Undefined, p).
Proof.
  unfold size, aligned, bind, get, assert, ret, undefined.
  destruct (length (m_f p) =? length (m_ID p)); simpl; [|done].
  by destruct (length (m_x p) =? length (m_ID p)).
Qed.

Lemma pop_inv_aligned p : pop_inv p → aligned p = true.
Proof.
  intros (Hx & Hf & _). unfold aligned. rewrite Hx, Hf, Nat.eqb_refl. done.
Qed.

Lemma set_xf_unfold i x f p :
  set_xf i x f p =
    if negb (aligned p) then (Undefined, p)
    else if length (m_ID p) <=? i then
      (Throw (invalid_argument (set_xf_i_msg i (length (m_ID p)))), p)
    else if negb (length f =? get_nf (m_prob p)) then
      (Throw (invalid_argument
                (set_xf_f_msg (length f) (get_nf (m_prob p)))), p)
    else if negb (length x =? get_nx (m_prob p)) then
      (Throw (invalid_argument
                (set_xf_x_msg (length x) (get_nx (m_prob p)))), p)
    else if negb ((length (m_x p !!! i) =? length x) &&
                  (length (m_f p !!! i) =? length f)) then (Undefined, p)
    else (Ok tt, overwritten p i x f).
Proof.
  unfold set_xf, bind. rewrite size_unfold.
  destruct (aligned p); simpl; [|done].
  destruct (length (m_ID p) <=? i); [done|]. unfold get.
  destruct (negb (length f =? get_nf (m_prob p))); [done|].
  destruct (negb (length x =? get_nx (m_prob p))); [done|].
  unfold assert, ret, undefined.
  destruct (length (m_x p !!! i) =? length x); simpl; [|done].
  by destruct (length (m_f p !!! i) =? length f).
Qed.

Lemma set_xf_state i x f p :
  (set_xf i x f p).2 = p ∨
  (set_xf i x f p = (Ok tt, overwritten p i x f) ∧
   length (m_x p !!! i) = length x ∧ length (m_f p !!! i) = length f ∧
   length x = get_nx (m_prob p) ∧ length f = get_nf (m_prob p)).
Proof.
  rewrite set_xf_unfold.
  destruct (negb (aligned p)); [by left|].
  destruct (length (m_ID p) <=? i); [by left|].
  destruct (Nat.eqb_spec (length f) (get_nf (m_prob p))); [|by left].
  destruct (Nat.eqb_spec (length x) (get_nx (m_prob p))); [|by left].
  simpl.
  destruct (Nat.eqb_spec (length (m_x p !!! i)) (length x)); [|by left].
  destruct (Nat.eqb_spec (length (m_f p !!! i)) (length f)); [|by left].
  by right.
Qed.

Lemma pop_inv_overwritten p i x f :
  pop_inv p →
  length (m_x p !!! i) = length x → length (m_f p !!! i) = length f →
  length x = get_nx (m_prob p) → length f = get_nf (m_prob p) →
  pop_inv (overwritten p i x f).
Proof.
  intros (Hx & Hf & Hxs & Hfs) Hxi Hfi Hlx Hlf. unfold pop_inv. simpl.
  rewrite !length_insert, !std_copy_same_length by done.
  repeat split; try done; by apply Forall_insert.
Qed.

Lemma set_xf_pop_inv i x f p : pop_inv p → pop_inv (set_xf i x f p).2.
Proof.
  intros Hinv. destruct (set_xf_state i x f p) as [->|(-> & ? & ? & ? & ?)];
    [done|]. by apply pop_inv_overwritten.
Qed.

Lemma set_x_pop_inv i x p : pop_inv p → pop_inv (set_x i x p).2.
Proof.
  intros Hinv. unfold set_x, bind, get, call.
  destruct (fitness (m_prob p) x) as [f|k]; [|done].
  by apply set_xf_pop_inv.
Qed.

(** C3. Every operation keeps the invariant of the data model: a
    population that the constructor returns satisfies it, and [push_back],
    [set_xf] and [set_x] leave a population that satisfies it in a
    population that satisfies it, whether they return or throw. *)
Theorem pop_inv_preserved :
  (∀ prob n seed pop, population_ctor prob n seed = Ok pop → pop_inv pop) ∧
  (∀ x p, pop_inv p → pop_inv (push_back x p).2) ∧
  (∀ i x f p, pop_inv p → pop_inv (set_xf i x f p).2) ∧
  (∀ i x p, pop_inv p → pop_inv (set_x i x p).2).
Proof.
  split; [apply population_ctor_pop_inv|].
  split; [apply push_back_pop_inv|].
  split; [apply set_xf_pop_inv|apply set_x_pop_inv].
Qed.

(** C6. On a population that satisfies the invariant, for [i < size],
    [|x| = nx] and [|f| = nf], [set_xf(i, x, f)] returns; afterwards
    individual [i] has its old ID and the vectors [x] and [f]; every other
    individual, the sequence of IDs, the size, the problem, the engine and
    the seed are unchanged; and the fitness function is not consulted:
    with any other fitness function in the problem the call does the
    same. *)
Theorem set_xf_frame i x f p :
  pop_inv p → i < length (m_ID p) →
  length x = get_nx (m_prob p) → length f = get_nf (m_prob p) →
  ∃ p', set_xf i x f p = (Ok tt, p') ∧
    (∃ id, m_ID p !! i = Some id ∧ individual p' i = Some (id, x, f)) ∧
    (∀ j, j ≠ i → individual p' j = individual p j) ∧
    m_ID p' = m_ID p ∧
    length (m_x p') = length (m_x p) ∧ length (m_f p') = length (m_f p) ∧
    m_prob p' = m_prob p ∧ m_e p' = m_e p ∧ m_seed p' = m_seed p ∧
    ∀ g, set_xf i x f (with_fitness g p) = (Ok tt, with_fitness g p').
Proof.
  intros Hinv Hi Hlx Hlf.
  pose proof (pop_inv_aligned p Hinv) as Hal.
  destruct Hinv as (Hx & Hf & Hxs & Hfs).
  assert (Hxi : length (m_x p !!! i) = length x).
  { assert (Hlk : m_x p !! i = Some (m_x p !!! i))
      by (apply list_lookup_lookup_total_lt; lia).
    rewrite Hlx. exact (Forall_lookup_1 _ _ _ _ Hxs Hlk). }
  assert (Hfi : length (m_f p !!! i) = length f).
  { assert (Hlk : m_f p !! i = Some (m_f p !!! i))
      by (apply list_lookup_lookup_total_lt; lia).
    rewrite Hlf. exact (Forall_lookup_1 _ _ _ _ Hfs Hlk). }
  assert (Hrun : ∀ q : population E, aligned q = true → m_ID q = m_ID p →
            m_x q = m_x p → m_f q = m_f p →
            get_nx (m_prob q) = get_nx (m_prob p) →
            get_nf (m_prob q) = get_nf (m_prob p) →
            set_xf i x f q = (Ok tt, overwritten q i x f)).
  { intros q Hq HID Hqx Hqf Hnx Hnf. rewrite set_xf_unfold, Hq. simpl.
    rewrite HID, Hqx, Hqf, Hnx, Hnf.
    destruct (Nat.leb_spec (length (m_ID p)) i); [lia|].
    rewrite Hlx, Hlf, !Nat.eqb_refl. simpl.
    rewrite Hxi, Hfi, Hlx, Hlf, !Nat.eqb_refl. done. }
  exists (overwritten p i x f). split; [by apply Hrun|].
  unfold individual. simpl.
  rewrite !std_copy_same_length by done.
  split.
  { destruct (lookup_lt_is_Some_2 (m_ID p) i Hi) as [id HID]. exists id.
    rewrite HID, !list_lookup_insert_eq by lia. done. }
  split; [intros j Hj; by rewrite !list_lookup_insert_ne|].
  rewrite !length_insert. repeat split; try done.
  intros g. rewrite Hrun; try done.
Qed.

(** C7. [set_x(i, x)] is [set_both(i, x, problem.fitness(x))]: the two
    leave the same outcome and the same population for every index,
    vector and population; in particular they fail in the same cases. *)
Theorem set_x_is_set_both_of_fitness i x p :
  set_x i x p = set_both_of_fitness i x p.
Proof.
  unfold set_x, set_both_of_fitness, bind, get, call.
  by destruct (fitness (m_prob p) x).
Qed.

(** *** [champion] *)

Lemma champion_unfold tol p :
  champion tol p =
    if negb (aligned p) then (Undefined, p)
    else if length (m_ID p) =? 0 then
      (Throw (invalid_argument champion_empty_msg), p)
    else if 1 <? get_nobj (m_prob p) then
      (Throw (invalid_argument champion_mo_msg), p)
    else if 0 <? get_nc (m_prob p) then
      match sort_population_con (m_f p) (get_nec (m_prob p)) tol with
      | i :: _ => (Ok i, p)
      | [] => (Undefined, p)
      end
    else
      match min_element
              (fun idx1 idx2 => vec_lt (m_f p !!! idx1) (m_f p !!! idx2))
              (seq 0 (length (m_ID p))) with
      | Some i => (Ok i, p)
      | None => (Undefined, p)
      end.
Proof.
  unfold champion, bind. rewrite size_unfold.
  destruct (aligned p); simpl; [|done].
  destruct (length (m_ID p) =? 0); [done|]. unfold get.
  destruct (1 <? get_nobj (m_prob p)); [done|].
  destruct (0 <? get_nc (m_prob p)).
  - by destruct (sort_population_con _ _ _) as [|i l].
  - by destruct (min_element _ _).
Qed.

(** In a single-objective unconstrained problem every stored fitness
    vector has exactly one component. *)
Lemma single_objective_fitness p i :
  pop_inv p → get_nobj (m_prob p) = 1 →
  get_nec (m_prob p) = 0 → get_nic (m_prob p) = 0 →
  i < length (m_ID p) →
  ∃ a, m_f p !! i = Some [a] ∧ m_f p !!! i = [a] ∧ objective p i = Some a.
Proof.
  intros (Hx & Hf & Hxs & Hfs) Hnobj Hnec Hnic Hi.
  assert (Hlk : m_f p !! i = Some (m_f p !!! i))
    by (apply list_lookup_lookup_total_lt; lia).
  pose proof (Forall_lookup_1 _ _ _ _ Hfs Hlk) as Hlen. simpl in Hlen.
  unfold get_nf in Hlen. rewrite Hnobj, Hnec, Hnic in Hlen. simpl in Hlen.
  destruct (m_f p !!! i) as [|a [|b l]] eqn:Hfi; simpl in Hlen; try lia.
  exists a. unfold objective. by rewrite Hlk.
Qed.

(** C4. On a non-empty population of a single-objective unconstrained
    problem, [champion(tol)] returns an index [i] of the population whose
    first fitness component is minimal: no individual has a strictly
    smaller one, and it is less than or equal to that of every
    individual it can be compared with (every one, when no fitness is
    NaN). The population is not modified. *)
Theorem champion_unconstrained_minimal tol p :
  pop_inv p → m_ID p ≠ [] →
  get_nobj (m_prob p) = 1 →
  get_nec (m_prob p) = 0 → get_nic (m_prob p) = 0 →
  ∃ i a, champion tol p = (Ok i, p) ∧ i < length (m_ID p) ∧
    objective p i = Some a ∧
    ∀ j b, objective p j = Some b →
      dlt b a = false ∧
      (is_nan a = false → is_nan b = false → dle a b = true).
Proof.
  intros Hinv Hne Hnobj Hnec Hnic.
  pose proof (single_objective_fitness p) as Hone.
  rewrite champion_unfold, (pop_inv_aligned p Hinv). simpl.
  destruct (m_ID p) as [|id ids] eqn:HID; [done|]. simpl length.
  unfold get_nc. rewrite Hnobj, Hnec, Hnic. simpl.
  set (n := S (length ids)) in *.
  set (comp := fun idx1 idx2 => vec_lt (m_f p !!! idx1) (m_f p !!! idx2)).
  assert (Hcomp : ∀ i j a b, i < n → j < n →
            objective p i = Some a → objective p j = Some b →
            comp i j = dlt a b).
  { intros i j a b Hi Hj Ha Hb. unfold comp.
    destruct (Hone i Hinv Hnobj Hnec Hnic Hi) as (a' & _ & -> & Ha').
    destruct (Hone j Hinv Hnobj Hnec Hnic Hj) as (b' & _ & -> & Hb').
    rewrite vec_lt_singleton. congruence. }
  destruct (min_element_from_minimal comp (fun i => i < n)) with
    (rest := seq 1 (length ids)) (s := 0) as (_ & Hin & Hmin).
  - intros i Hi. destruct (Hone i Hinv Hnobj Hnec Hnic Hi) as (a & _ & _ & Ha).
    rewrite (Hcomp i i a a) by done. apply dlt_irrefl.
  - intros i j k Hi Hj Hk.
    destruct (Hone i Hinv Hnobj Hnec Hnic Hi) as (a & _ & _ & Ha).
    destruct (Hone j Hinv Hnobj Hnec Hnic Hj) as (b & _ & _ & Hb).
    destruct (Hone k Hinv Hnobj Hnec Hnic Hk) as (c & _ & _ & Hc).
    rewrite (Hcomp i j a b), (Hcomp j k b c), (Hcomp i k a c) by done.
    apply dlt_trans.
  - unfold n. lia.
  - apply Forall_forall. intros i Hi. apply elem_of_seq in Hi. unfold n. lia.
  - set (r := min_element_from comp 0 (seq 1 (length ids))) in *.
    assert (Hr : r < n).
    { change (0 :: seq 1 (length ids)) with (seq 0 n) in Hin.
      apply elem_of_seq in Hin. lia. }
    destruct (Hone r Hinv Hnobj Hnec Hnic Hr) as (a & _ & _ & Ha).
    exists r, a. split; [done|]. split; [done|]. split; [done|].
    intros j b Hb.
    assert (Hj : j < n).
    { unfold objective in Hb. destruct (m_f p !! j) eqn:Hlk; [|done].
      apply lookup_lt_Some in Hlk. destruct Hinv as (_ & Hf & _).
      rewrite Hf, HID in Hlk. done. }
    assert (Hlt : dlt b a = false).
    { rewrite <- (Hcomp j r b a) by done. apply Hmin.
      change (0 :: seq 1 (length ids)) with (seq 0 n).
      apply elem_of_seq. lia. }
    split; [done|]. intros Hna Hnb. by apply dle_of_not_dlt.
Qed.




(** *** Determinism of the constructor *)

(** One successful iteration of the loop of the constructor: a 32 bit
    draw seeds the random decision vector, a 64 bit draw is the ID. *)
Lemma ctor_body_ok p p' :
  (let! x := decision_vector in push_back x) p = (Ok tt, p') →
  let e1 := (uniform_u32 (m_e p)).2 in
  ∃ x f,
    pagmo_decision_vector (get_bounds (m_prob p)) (uniform_u32 (m_e p)).1
      = Returns x ∧
    p' = appended (with_engine p (uniform_u64 e1).2) (uniform_u64 e1).1 x f.
Proof.
  unfold bind. rewrite decision_vector_unfold. simpl.
  destruct (pagmo_decision_vector _ _) as [x|k]; [|done].
  rewrite push_back_unfold. simpl.
  destruct (fitness (m_prob p) x) as [f|k]; [|done].
  destruct (negb (length x =? get_nx (m_prob p))); [done|].
  destruct (negb (length f =? get_nf (m_prob p))); [done|].
  intros [= <-]. by exists x, f.
Qed.

(** The loop of the constructor appends, for each pair of draws, the ID
    that was drawn and the decision vector that [pagmo::decision_vector]
    makes of the bounds and the drawn value. *)
Lemma for_loop_ctor_draws n p p' :
  for_loop n (let! x := decision_vector in push_back x) p = (Ok tt, p') →
  m_ID p' = m_ID p ++ (snd <$> ctor_draws n (m_e p)) ∧
  ∃ xs, m_x p' = m_x p ++ xs ∧
    Forall2 (fun x s =>
               pagmo_decision_vector (get_bounds (m_prob p)) s = Returns x)
            xs (fst <$> ctor_draws n (m_e p)).
Proof.
  revert p. induction n as [|n IH]; intros p.
  - simpl. intros [= <-]. rewrite app_nil_r. split; [done|].
    exists []. rewrite app_nil_r. split; [done|constructor].
  - rewrite for_loop_S.
    destruct ((let! x := decision_vector in push_back x) p)
      as [[[]|e|] p1] eqn:Hbody; [|done..].
    intros Hloop. apply IH in Hloop as (HID & xs & Hxs & Hall).
    apply ctor_body_ok in Hbody as (x & f & Hx & ->).
    cbn [ctor_draws]. cbv zeta in *.
    destruct (uniform_u32 (m_e p)) as [s e1].
    cbn [fst snd] in *.
    destruct (uniform_u64 e1) as [id e2]. simpl in *.
    split; [by rewrite HID, <- app_assoc|].
    exists (x :: xs). split; [by rewrite Hxs, <- app_assoc|].
    by constructor.
Qed.

Lemma population_ctor_stream prob n seed pop :
  population_ctor prob n seed = Ok pop →
  m_ID pop = (snd <$> ctor_draws n (engine_seed (seed mod 2 ^ 32)%Z)) ∧
  Forall2 (fun x s => pagmo_decision_vector (get_bounds prob) s = Returns x)
          (m_x pop) (fst <$> ctor_draws n (engine_seed (seed mod 2 ^ 32)%Z)).
Proof.
  unfold population_ctor.
  destruct (for_loop n _ _) as [[[]|e|] p'] eqn:Hloop; [|done..].
  intros [= <-].
  apply for_loop_ctor_draws in Hloop as (HID & xs & Hxs & Hall).
  simpl in *. by rewrite HID, Hxs.
Qed.

(** The values a function returns on a sequence of arguments. *)
Lemma Forall2_returns_inj {A B : Type} (g : A → user_result B)
    (bs bs' : list B) (ss : list A) :
  Forall2 (fun b s => g s = Returns b) bs ss →
  Forall2 (fun b s => g s = Returns b) bs' ss → bs = bs'.
Proof.
  intros Hbs. revert bs'.
  induction Hbs as [|b s bs ss Hb _ IH]; intros bs' Hbs'.
  - by apply Forall2_nil_inv_r in Hbs'.
  - apply Forall2_cons_inv_r in Hbs' as (b' & bs'' & Hb' & Hbs' & ->).
    f_equal; [congruence|by apply IH].
Qed.

(** C8. Two constructions [Population(problem, size, seed)] with the same
    size and seed and with problems that have the same bounds, made in
    any two states of the process-wide random device, give populations
    with the same sequence of IDs and the same sequence of decision
    vectors. The sequences are those that the draws from the engine
    seeded with the seed, as an [unsigned], determine: the ID of
    individual [i] is the 64 bit value of draw [i], and its decision
    vector is the one that [pagmo::decision_vector] makes of the bounds
    and the 32 bit value of draw [i]. What the fitness function returns
    has no part in them, and neither construction touches the device. *)
Theorem population_new_deterministic {G : Type} `{!RandomDevice G}
    prob1 prob2 n seed (g1 g2 : G) pop1 pop2 :
  get_bounds prob1 = get_bounds prob2 →
  (population_new prob1 n (Some seed) g1).1 = Ok pop1 →
  (population_new prob2 n (Some seed) g2).1 = Ok pop2 →
  (m_ID pop1 = m_ID pop2 ∧ m_x pop1 = m_x pop2) ∧
  m_ID pop1 = (snd <$> ctor_draws n (engine_seed (seed mod 2 ^ 32)%Z)) ∧
  Forall2 (fun x s => pagmo_decision_vector (get_bounds prob1) s = Returns x)
          (m_x pop1)
          (fst <$> ctor_draws n (engine_seed (seed mod 2 ^ 32)%Z)) ∧
  (population_new prob1 n (Some seed) g1).2 = g1 ∧
  (population_new prob2 n (Some seed) g2).2 = g2.
Proof.
  simpl. intros Hb H1 H2.
  apply population_ctor_stream in H1 as [HID1 Hx1].
  apply population_ctor_stream in H2 as [HID2 Hx2].
  rewrite <- Hb in Hx2.
  split; [|done]. split; [congruence|].
  by apply (Forall2_returns_inj _ _ _ _ Hx1).
Qed.
End PopulationProperties.

(** ** The archipelago *)

Section ArchipelagoProperties.
Context {E : Type} `{!RandomEngine E} `{!Utils}.
Context {algorithm : Type} {topology : Type} `{!Topology topology}.
Implicit Types (w : world E algorithm topology).
Implicit Types (arch : archipelago E algorithm topology).

(** *** The seeds of the islands *)

Lemma ctor_body_seed (p : population E) :
  m_seed ((let! x := decision_vector in push_back x) p).2 = m_seed p.
Proof.
  unfold bind. rewrite decision_vector_unfold. simpl.
  destruct (pagmo_decision_vector _ _) as [x|k]; [|done].
  rewrite push_back_unfold. simpl.
  destruct (fitness _ x) as [f|k]; [|done]. simpl.
  destruct (negb (length x =? _)); [done|].
  by destruct (negb (length f =? _)).
Qed.

(** The constructed population remembers its seed, as an [unsigned]. *)
Lemma population_ctor_seed prob n seed (pop : population E) :
  population_ctor prob n seed = Ok pop → m_seed pop = (seed mod 2 ^ 32)%Z.
Proof.
  unfold population_ctor.
  set (init := {| m_prob := prob; m_ID := []; m_x := []; m_f := [];
                  m_e := engine_seed (seed mod 2 ^ 32)%Z;
                  m_seed := (seed mod 2 ^ 32)%Z |}).
  pose proof (for_loop_preserves (fun q => m_seed q = (seed mod 2 ^ 32)%Z)
                (let! x := decision_vector in push_back x) n init) as Hloop.
  destruct (for_loop _ _ init) as [[[]|e|] pop']; intros [= <-].
  apply Hloop; [|done]. intros q <-. apply ctor_body_seed.
Qed.

Lemma archi_push_back_seeds a prob pop_size s w w' :
  in32 s →
  archi_push_back a prob pop_size s w = (Ok tt, w') →
  island_seeds (this w') = island_seeds (this w) ++ [s].
Proof.
  intros Hs. unfold archi_push_back, bind, make_unique_island, island_ctor.
  destruct (population_ctor prob pop_size s) as [pop|e|] eqn:Hpop; [|done..].
  apply population_ctor_seed in Hpop.
  rewrite Z.mod_small in Hpop by exact Hs.
  unfold push_back_impl, bind, get, put, call. simpl.
  destruct (N.of_nat _ =? size_type_max)%N; [done|].
  destruct (topology_push_back _) as [t|k]; [|done].
  intros [= <-]. unfold island_seeds. simpl.
  by rewrite map_app, <- Hpop.
Qed.

Lemma n_ctor_loop_seeds n eng a prob size w w' :
  Forall in32 (mt19937.mt eng) →
  n_ctor_loop n eng a prob size w = (Ok tt, w') →
  island_seeds (this w') = island_seeds (this w) ++ mt19937.draws n eng.
Proof.
  revert eng w. induction n as [|n IH]; intros eng w Heng;
    cbn [n_ctor_loop mt19937.draws].
  - intros [= <-]. by rewrite app_nil_r.
  - unfold bind at 1. unfold numeric_cast_size_type.
    destruct (_ || _); [done|]. unfold ret at 1.
    pose proof (in32_next eng Heng) as [Hs Heng'].
    change (mt19937.next eng) with (mt19937.udist eng) in Hs, Heng'.
    destruct (mt19937.udist eng) as [s eng']. cbn [fst snd] in Hs, Heng'.
    unfold bind.
    destruct (archi_push_back _ _ _ _ w) as [[[]|e|] w1] eqn:Hpush; [|done..].
    intros Hloop. apply (IH _ _ Heng') in Hloop.
    apply (archi_push_back_seeds _ _ _ _ _ _ Hs) in Hpush.
    by rewrite Hloop, Hpush, <- app_assoc.
Qed.

Lemma draws_length n eng : length (mt19937.draws n eng) = n.
Proof.
  revert eng. induction n as [|n IH]; intros eng; simpl; [done|].
  destruct (mt19937.udist eng). simpl. by rewrite IH.
Qed.

Lemma archipelago_n_draws n a prob size seed free_store arch :
  archipelago_n n a prob size seed free_store = Ok arch →
  island_seeds arch = mt19937.draws n (mt19937.seed (seed mod 2 ^ 32)).
Proof.
  unfold archipelago_n, n_ctor.
  destruct (n_ctor_loop _ _ _ _ _ _) as [[[]|e|] w'] eqn:Hloop; [|done..].
  intros [= <-]. apply n_ctor_loop_seeds in Hloop; [done|apply in32_seed].
Qed.

(** Whatever the seed, more than [2^32] islands cannot all receive
    different population seeds. *)
Lemma archipelago_n_seeds_pigeonhole n a prob size seed free_store arch :
  archipelago_n n a prob size seed free_store = Ok arch →
  (2 ^ 32 < Z.of_nat n)%Z → ¬ NoDup (island_seeds arch).
Proof.
  intros Hrun Hn Hnd. apply archipelago_n_draws in Hrun.
  apply in32_NoDup_length in Hnd.
  - rewrite Hrun, draws_length in Hnd. lia.
  - rewrite Hrun. apply in32_draws, in32_seed.
Qed.

(** C9, as the code has it. The seed argument, reduced to [unsigned],
    seeds an [std::mt19937]; the population seed of island [i] of the
    constructed archipelago is the value number [i] that
    [std::uniform_int_distribution<unsigned>] draws from that engine, a
    value of 32 bits, and there are [n] islands. *)
Theorem archipelago_n_island_seeds n a prob size seed free_store arch :
  archipelago_n n a prob size seed free_store = Ok arch →
  island_seeds arch = mt19937.draws n (mt19937.seed (seed mod 2 ^ 32)) ∧
  Forall in32 (island_seeds arch) ∧
  length (m_islands arch) = n.
Proof.
  intros Hrun. apply archipelago_n_draws in Hrun as Hseeds.
  split; [done|]. split.
  - rewrite Hseeds. apply in32_draws, in32_seed.
  - rewrite <- (draws_length n (mt19937.seed (seed mod 2 ^ 32))), <- Hseeds.
    unfold island_seeds. by rewrite length_map.
Qed.

(** *** [load] *)

Lemma emplace_lookup_present k v (m : gmap N nat) a u :
  m !! a = Some u → emplace k v m !! a = Some u.
Proof.
  intros Ha. unfold emplace. destruct (m !! k) eqn:Hk; [done|].
  rewrite lookup_insert_ne; [done|]. congruence.
Qed.

Lemma map_islands_keeps (l : list (unique_ptr (island E algorithm))) k m a u :
  m !! a = Some u → map_islands l k m !! a = Some u.
Proof.
  revert k m. induction l as [|ptr l IH]; intros k m Ha; simpl; [done|].
  by apply IH, emplace_lookup_present.
Qed.

(** With pairwise distinct addresses, the loop maps the address of each
    island to its position. *)
Lemma map_islands_lookup (l : list (unique_ptr (island E algorithm))) k m i ptr :
  NoDup (ptr_get <$> l) →
  (∀ q, q ∈ l → m !! ptr_get q = None) →
  l !! i = Some ptr →
  map_islands l k m !! ptr_get ptr = Some (k + i).
Proof.
  revert k m i. induction l as [|q l IH]; intros k m i Hnd Hfresh Hi;
    [done|].
  rewrite fmap_cons in Hnd. apply NoDup_cons in Hnd as [Hq Hnd]. simpl.
  assert (Hem : emplace (ptr_get q) k m = <[ptr_get q := k]> m).
  { unfold emplace. rewrite Hfresh; [done|]. apply list_elem_of_here. }
  rewrite Hem. destruct i as [|i]; simpl in Hi.
  - injection Hi as ->. rewrite Nat.add_0_r.
    apply map_islands_keeps, lookup_insert_eq.
  - rewrite (IH (S k) _ i Hnd); [f_equal; lia| |done].
    intros r Hr. rewrite lookup_insert_ne.
    + by apply Hfresh, list_elem_of_further.
    + intros Heq. apply Hq. rewrite Heq. by apply list_elem_of_fmap_2.
Qed.

(** C10. [load] is atomic. If it fails at any read, the archipelago is
    the one before the call. If it succeeds, the three reads succeeded in
    order and the archipelago consists of exactly what was read, with the
    index map rebuilt by the loop; when the addresses of the islands read
    are pairwise distinct, as the addresses of objects owned by distinct
    [unique_ptr]s are, that map sends the address of each island to its
    position in the sequence of islands. *)
Theorem load_atomic {Ar : Type} `{!Archive E algorithm topology Ar}
    (ar : Ar) arch :
  (is_ok (load ar arch).1 = false → (load ar arch).2 = arch) ∧
  (∀ ar', (load ar arch).1 = Ok ar' →
     ∃ islands migrants topo ar1 ar2,
       read_islands ar = Returns (islands, ar1) ∧
       read_migrants ar1 = Returns (migrants, ar2) ∧
       read_topology ar2 = Returns (topo, ar') ∧
       (load ar arch).2 =
         {| m_islands := islands;
            m_idx_map := map_islands islands 0 ∅;
            m_migrants := migrants;
            m_topology := topo |} ∧
       (NoDup (ptr_get <$> islands) →
        ∀ i ptr, m_islands (load ar arch).2 !! i = Some ptr →
                 m_idx_map (load ar arch).2 !! ptr_get ptr = Some i)).
Proof.
  unfold load, bind, call, move_assign, put, ret, throw.
  destruct (read_islands ar) as [[islands ar1]|k] eqn:H1; simpl;
    [|by split].
  destruct (read_migrants ar1) as [[migrants ar2]|k] eqn:H2; simpl;
    [|by split].
  destruct (read_topology ar2) as [[topo ar3]|k] eqn:H3; simpl;
    [|by split].
  split; [done|]. intros ar' Hok. injection Hok as <-.
  exists islands, migrants, topo, ar1, ar2. repeat split; try done.
  intros Hnd i ptr Hi.
  by apply (map_islands_lookup islands 0 ∅ i ptr Hnd).
Qed.
End ArchipelagoProperties.

(** ** Further properties of the population *)

Section PopulationMoreProperties.
Context {E : Type} `{!RandomEngine E} `{!Utils}.
Implicit Types (p : population E) (x f : vector_double).

(** A [set_xf] that returns has overwritten slot [i], which was in range
    and held vectors of the dimensions of [x] and [f]. *)
Lemma set_xf_ok_inv i x f p p' :
  set_xf i x f p = (Ok tt, p') →
  p' = overwritten p i x f ∧ aligned p = true ∧ i < length (m_ID p) ∧
  length f = get_nf (m_prob p) ∧ length x = get_nx (m_prob p) ∧
  length (m_x p !!! i) = length x ∧ length (m_f p !!! i) = length f.
Proof.
  rewrite set_xf_unfold.
  destruct (aligned p); simpl; [|done].
  destruct (Nat.leb_spec (length (m_ID p)) i); [done|].
  destruct (Nat.eqb_spec (length f) (get_nf (m_prob p))); simpl; [|done].
  destruct (Nat.eqb_spec (length x) (get_nx (m_prob p))); simpl; [|done].
  destruct (Nat.eqb_spec (length (m_x p !!! i)) (length x)); simpl; [|done].
  destruct (Nat.eqb_spec (length (m_f p !!! i)) (length f)); simpl; [|done].
  by intros [= <-].
Qed.

Lemma pop_inv_slot p i :
  pop_inv p → i < length (m_ID p) →
  length (m_x p !!! i) = get_nx (m_prob p) ∧
  length (m_f p !!! i) = get_nf (m_prob p).
Proof.
  intros (Hx & Hf & Hxs & Hfs) Hi. split.
  - assert (Hlk : m_x p !! i = Some (m_x p !!! i))
      by (apply list_lookup_lookup_total_lt; lia).
    exact (Forall_lookup_1 _ _ _ _ Hxs Hlk).
  - assert (Hlk : m_f p !! i = Some (m_f p !!! i))
      by (apply list_lookup_lookup_total_lt; lia).
    exact (Forall_lookup_1 _ _ _ _ Hfs Hlk).
Qed.

(** On a population that satisfies the invariant, a [set_xf] with a valid
    index and vectors of the right dimensions returns the overwritten
    population. *)
Lemma set_xf_ok i x f p :
  pop_inv p → i < length (m_ID p) →
  length x = get_nx (m_prob p) → length f = get_nf (m_prob p) →
  set_xf i x f p = (Ok tt, overwritten p i x f).
Proof.
  intros Hinv Hi Hlx Hlf. rewrite set_xf_unfold, (pop_inv_aligned p Hinv).
  destruct (pop_inv_slot p i Hinv Hi) as [Hxi Hfi]. simpl.
  destruct (Nat.leb_spec (length (m_ID p)) i); [lia|].
  rewrite Hlf, Hlx, Hxi, Hfi, !Nat.eqb_refl. done.
Qed.

(** [set_xf] fails with [std::invalid_argument] exactly on an index out of
    range or a vector of the wrong dimension; the index is checked first
    and its message reports the position and the size; whenever [set_xf]
    does not return, the population is the one before the call. *)
Theorem set_xf_fails_iff i x f p :
  pop_inv p →
  (is_invalid_argument (set_xf i x f p).1 = true ↔
     length (m_ID p) ≤ i ∨ length f ≠ get_nf (m_prob p) ∨
     length x ≠ get_nx (m_prob p)) ∧
  (length (m_ID p) ≤ i →
     (set_xf i x f p).1
       = Throw (invalid_argument (set_xf_i_msg i (length (m_ID p))))) ∧
  (is_invalid_argument (set_xf i x f p).1 = false →
     (set_xf i x f p).1 = Ok tt) ∧
  (is_ok (set_xf i x f p).1 = false → (set_xf i x f p).2 = p).
Proof.
  intros Hinv. rewrite set_xf_unfold, (pop_inv_aligned p Hinv). simpl.
  destruct (Nat.leb_spec (length (m_ID p)) i) as [Hi|Hi]; simpl.
  { split; [split; [by left|done]|]. done. }
  destruct (pop_inv_slot p i Hinv Hi) as [Hxi Hfi].
  destruct (Nat.eqb_spec (length f) (get_nf (m_prob p))) as [Hf|Hf]; simpl.
  2:{ split; [split; [by right; left|done]|]. split; [lia|done]. }
  destruct (Nat.eqb_spec (length x) (get_nx (m_prob p))) as [Hx|Hx]; simpl.
  2:{ split; [split; [by right; right|done]|]. split; [lia|done]. }
  rewrite Hxi, Hfi, Hx, Hf, !Nat.eqb_refl. simpl.
  split; [|split; [lia|done]].
  split; [done|]. intros [?|[?|?]]; [lia|done..].
Qed.

(** What [set_x] does when it returns: slot [i] holds its old ID, [x] and
    the fitness of [x]; every other individual and the engine are the
    ones before the call. When it does not return, nothing has changed. *)
Theorem set_x_effect i x p :
  (∀ p', set_x i x p = (Ok tt, p') →
     ∃ id f, fitness (m_prob p) x = Returns f ∧
       m_ID p !! i = Some id ∧ individual p' i = Some (id, x, f) ∧
       (∀ j, j ≠ i → individual p' j = individual p j) ∧
       m_ID p' = m_ID p ∧ m_prob p' = m_prob p ∧ m_e p' = m_e p ∧
       m_seed p' = m_seed p) ∧
  (is_ok (set_x i x p).1 = false → (set_x i x p).2 = p).
Proof.
  unfold set_x, bind, get, call. split.
  - intros p'. destruct (fitness (m_prob p) x) as [f|k] eqn:Hfit; [|done].
    simpl. intros Hrun.
    apply set_xf_ok_inv in Hrun as (-> & Hal & Hi & Hlf & Hlx & Hxi & Hfi).
    unfold aligned in Hal. apply andb_true_iff in Hal as [Hf Hx].
    apply Nat.eqb_eq in Hf, Hx.
    destruct (lookup_lt_is_Some_2 (m_ID p) i Hi) as [id HID].
    exists id, f. split; [done|]. split; [done|].
    unfold individual. simpl. rewrite !std_copy_same_length by done.
    split; [by rewrite HID, !list_lookup_insert_eq by lia|].
    split; [intros j Hj; by rewrite !list_lookup_insert_ne|done].
  - destruct (fitness (m_prob p) x) as [f|k]; [|done]. simpl.
    destruct (set_xf_state i x f p) as [->|[-> _]]; done.
Qed.

(** *** Consistency of stored fitness *)

Lemma push_back_consistent x p :
  fitness_consistent p → fitness_consistent (push_back x p).2.
Proof.
  intros Hc. rewrite push_back_unfold. simpl.
  destruct (fitness (m_prob p) x) as [f|k] eqn:Hfit; [|done].
  destruct (negb (length x =? get_nx (m_prob p))); [done|].
  destruct (negb (length f =? get_nf (m_prob p))); [done|].
  unfold fitness_consistent. simpl. apply Forall2_app; [done|].
  by apply Forall2_cons.
Qed.

Lemma set_x_consistent i x p :
  fitness_consistent p → fitness_consistent (set_x i x p).2.
Proof.
  intros Hc. unfold set_x, bind, get, call.
  destruct (fitness (m_prob p) x) as [f|k] eqn:Hfit; [|done]. simpl.
  destruct (set_xf_state i x f p) as [->|(-> & Hxi & Hfi & _)]; [done|].
  unfold fitness_consistent. simpl.
  rewrite !std_copy_same_length by done. by apply Forall2_insert.
Qed.

Lemma ctor_body_consistent p :
  fitness_consistent p →
  fitness_consistent ((let! x := decision_vector in push_back x) p).2.
Proof.
  intros Hc. unfold bind. rewrite decision_vector_unfold. simpl.
  destruct (pagmo_decision_vector _ _) as [x|k]; [|done].
  by apply push_back_consistent.
Qed.

Lemma population_ctor_consistent prob n seed (pop : population E) :
  population_ctor prob n seed = Ok pop → fitness_consistent pop.
Proof.
  unfold population_ctor.
  set (init := {| m_prob := prob; m_ID := []; m_x := []; m_f := [];
                  m_e := engine_seed (seed mod 2 ^ 32)%Z;
                  m_seed := (seed mod 2 ^ 32)%Z |}).
  assert (Hinit : fitness_consistent init) by apply Forall2_nil_2.
  pose proof (for_loop_preserves fitness_consistent
                (let! x := decision_vector in push_back x) n init
                ctor_body_consistent Hinit) as Hloop.
  destruct (for_loop _ _ init) as [[[]|e|] pop']; intros [= <-]; done.
Qed.

(** Every population that the constructor returns, and every population
    reached from it by [push_back] and [set_x], stores with each decision
    vector the fitness the problem computes for it. *)
Theorem fitness_consistent_preserved :
  (∀ prob n seed (pop : population E),
     population_ctor prob n seed = Ok pop → fitness_consistent pop) ∧
  (∀ x p, fitness_consistent p → fitness_consistent (push_back x p).2) ∧
  (∀ i x p, fitness_consistent p → fitness_consistent (set_x i x p).2).
Proof.
  split; [apply population_ctor_consistent|].
  split; [apply push_back_consistent|apply set_x_consistent].
Qed.

(** *** The constructor *)

Lemma ctor_body_frame p :
  let p' := ((let! x := decision_vector in push_back x) p).2 in
  m_prob p' = m_prob p ∧ m_seed p' = m_seed p.
Proof.
  unfold bind. rewrite decision_vector_unfold. simpl.
  destruct (pagmo_decision_vector _ _) as [x|k]; [|done].
  rewrite push_back_unfold. simpl.
  destruct (fitness _ x) as [f|k]; [|done]. simpl.
  destruct (negb (length x =? _)); [done|].
  by destruct (negb (length f =? _)).
Qed.

Lemma for_loop_ctor_size n p p' :
  for_loop n (let! x := decision_vector in push_back x) p = (Ok tt, p') →
  length (m_ID p') = length (m_ID p) + n ∧
  m_prob p' = m_prob p ∧ m_seed p' = m_seed p.
Proof.
  revert p. induction n as [|n IH]; intros p.
  - simpl. intros [= <-]. split; [lia|done].
  - rewrite for_loop_S.
    destruct ((let! x := decision_vector in push_back x) p)
      as [[[]|e|] p1] eqn:Hbody; [|done..].
    intros Hloop. apply IH in Hloop as (Hlen & Hprob & Hseed).
    pose proof (ctor_body_frame p) as [Hp1 Hs1]. rewrite Hbody in Hp1, Hs1.
    simpl in Hp1, Hs1.
    apply ctor_body_ok in Hbody as (x & f & _ & ->).
    simpl in Hlen. rewrite length_app in Hlen. simpl in Hlen.
    split; [lia|]. split; congruence.
Qed.

Lemma population_ctor_shape prob n seed (pop : population E) :
  population_ctor prob n seed = Ok pop →
  length (m_ID pop) = n ∧ length (m_x pop) = n ∧ length (m_f pop) = n ∧
  m_prob pop = prob ∧ m_seed pop = (seed mod 2 ^ 32)%Z.
Proof.
  intros Hctor.
  pose proof (population_ctor_pop_inv _ _ _ _ Hctor) as (Hx & Hf & _).
  unfold population_ctor in Hctor.
  destruct (for_loop n _ _) as [[[]|e|] p'] eqn:Hloop; [|done..].
  injection Hctor as <-.
  apply for_loop_ctor_size in Hloop as (Hlen & Hprob & Hseed).
  simpl in *. repeat split; try done; lia.
Qed.

(** A constructed population has exactly [pop_size] individuals, is bound
    to the problem it was given and records its seed as the [unsigned int]
    it was converted to: the seed argument modulo [2^32], a value of 32
    bits. With [pop_size = 0] the constructor always returns, and the
    engine is the one freshly seeded with that value. *)
Theorem population_ctor_size prob n seed :
  (∀ pop : population E, population_ctor prob n seed = Ok pop →
     length (m_ID pop) = n ∧ length (m_x pop) = n ∧ length (m_f pop) = n ∧
     m_prob pop = prob ∧ m_seed pop = (seed mod 2 ^ 32)%Z ∧
     in32 (m_seed pop)) ∧
  population_ctor (E := E) prob 0 seed
    = Ok {| m_prob := prob; m_ID := []; m_x := []; m_f := [];
            m_e := engine_seed (seed mod 2 ^ 32)%Z;
            m_seed := (seed mod 2 ^ 32)%Z |}.
Proof.
  split; [|done]. intros pop Hctor.
  destruct (population_ctor_shape _ _ _ _ Hctor) as (? & ? & ? & ? & Hseed).
  repeat split; try done; rewrite Hseed; apply Z.mod_pos_bound; lia.
Qed.

Lemma for_loop_ctor_total prob n p :
  m_prob p = prob →
  (∀ s, ∃ x, pagmo_decision_vector (get_bounds prob) s = Returns x ∧
             length x = get_nx prob) →
  (∀ x, length x = get_nx prob →
        ∃ f, fitness prob x = Returns f ∧ length f = get_nf prob) →
  ∃ p', for_loop n (let! x := decision_vector in push_back x) p = (Ok tt, p').
Proof.
  intros Hprob Hdv Hfit. revert p Hprob.
  induction n as [|n IH]; intros p Hprob; [by eexists|].
  rewrite for_loop_S. unfold bind at 1. rewrite decision_vector_unfold.
  simpl. rewrite Hprob.
  destruct (Hdv (uniform_u32 (m_e p)).1) as (x & -> & Hx).
  rewrite push_back_unfold. simpl. rewrite Hprob.
  destruct (Hfit x Hx) as (f & -> & Hf).
  rewrite Hx, Hf, !Nat.eqb_refl. simpl. apply IH. done.
Qed.

(** The constructor returns whenever the collaborators keep to the
    dimensions of the problem: the random decision vector has [nx]
    components and the fitness of a vector of [nx] components has [nf]. *)
Theorem population_ctor_total prob n seed :
  (∀ s, ∃ x, pagmo_decision_vector (get_bounds prob) s = Returns x ∧
             length x = get_nx prob) →
  (∀ x, length x = get_nx prob →
        ∃ f, fitness prob x = Returns f ∧ length f = get_nf prob) →
  ∃ pop : population E, population_ctor prob n seed = Ok pop.
Proof.
  intros Hdv Hfit. unfold population_ctor.
  destruct (for_loop_ctor_total prob n
              {| m_prob := prob; m_ID := []; m_x := []; m_f := [];
                 m_e := engine_seed (seed mod 2 ^ 32)%Z;
                  m_seed := (seed mod 2 ^ 32)%Z |}
              eq_refl Hdv Hfit) as [p' ->].
  by eexists.
Qed.

(** *** Ties in [champion] *)

Lemma dlt_le_trans_nan (a b c : double) :
  dlt a b = true → dlt c b = false → is_nan c = false → dlt a c = true.
Proof.
  unfold dlt, SFltb, SFcompare.
  destruct a as [[]|[]| |[] ? ?], b as [[]|[]| |[] ? ?],
    c as [[]|[]| |[] ? ?];
    simpl; try congruence;
    change (PosDef.Pos.compare_cont Eq) with Pos.compare;
    intros;
    repeat match goal with
      | |- context [(?a ?= ?b)%Z] => destruct (Z.compare_spec a b)
      | |- context [(?a ?= ?b)%positive] => destruct (Pos.compare_spec a b)
      | H : context [(?a ?= ?b)%Z] |- _ => destruct (Z.compare_spec a b)
      | H : context [(?a ?= ?b)%positive] |- _ =>
          destruct (Pos.compare_spec a b)
      end; simpl in *; try congruence; try lia.
Qed.

(** On a range of increasing indices [std::min_element] returns the first
    of the smallest: the result is strictly below every earlier index that
    can be compared. *)
Lemma min_element_from_first (comp : nat → nat → bool) (P good : nat → Prop)
    (rest : list nat) (s : nat) :
  (∀ a, P a → comp a a = false) →
  (∀ a b c, P a → P b → P c →
     comp a b = true → comp b c = true → comp a c = true) →
  (∀ a b c, P a → P b → P c →
     comp a b = true → comp c b = false → good c → comp a c = true) →
  P s → Forall P rest → StronglySorted lt (s :: rest) →
  ∀ y, y ∈ s :: rest → y < min_element_from comp s rest → good y →
       comp (min_element_from comp s rest) y = true.
Proof.
  intros Hirr Htr Hco. revert s.
  induction rest as [|z rest IH]; intros s Hs Hrest Hsort y Hy Hlt Hgood.
  { simpl in Hlt. apply list_elem_of_singleton in Hy. lia. }
  apply Forall_cons in Hrest as [Hz Hrest].
  apply StronglySorted_inv in Hsort as [Hsort Hsall].
  apply Forall_cons in Hsall as [Hsz Hsall].
  pose proof Hsort as Hsort'.
  apply StronglySorted_inv in Hsort' as [Hsortr Hzall].
  simpl in *. destruct (comp z s) eqn:Hzs.
  - destruct (min_element_from_minimal comp P Hirr Htr rest z Hz Hrest)
      as (Hle & Hin & _).
    assert (Hr : P (min_element_from comp z rest)).
    { apply elem_of_cons in Hin as [->|Hin]; [done|].
      by eapply Forall_forall in Hrest. }
    apply elem_of_cons in Hy as [->|Hy]; [|by apply IH].
    destruct Hle as [Heq|Hle]; [by rewrite Heq|]. by apply (Htr _ z s).
  - assert (Hsort2 : StronglySorted lt (s :: rest)).
    { apply SSorted_cons; [done|]. done. }
    destruct (min_element_from_minimal comp P Hirr Htr rest s Hs Hrest)
      as (Hle & Hin & _).
    assert (Hr : P (min_element_from comp s rest)).
    { apply elem_of_cons in Hin as [->|Hin]; [done|].
      by eapply Forall_forall in Hrest. }
    apply elem_of_cons in Hy as [->|Hy];
      [apply IH; [done..|apply list_elem_of_here|done|done]|].
    apply elem_of_cons in Hy as [->|Hy];
      [|apply IH; [done..|by apply list_elem_of_further|done|done]].
    destruct Hle as [Heq|Hle]; [rewrite Heq in Hlt; lia|].
    by apply (Hco _ s z).
Qed.

(** A start that nothing is strictly below is the result. *)
Lemma min_element_from_stays {A : Type} (comp : A → A → bool) (s : A) rest :
  (∀ y, y ∈ rest → comp y s = false) → min_element_from comp s rest = s.
Proof.
  induction rest as [|y rest IH]; intros Hall; simpl; [done|].
  rewrite (Hall y) by apply list_elem_of_here.
  apply IH. intros z Hz. by apply Hall, list_elem_of_further.
Qed.

(** Ties and NaN in the champion of a single-objective unconstrained
    problem. The objective of the champion is strictly below that of
    every individual stored before it whose objective is not NaN. When no
    stored objective is NaN, it is also less than or equal to every
    stored objective: the champion is the first individual that attains
    the smallest objective. When the objective of the first individual is
    NaN, the champion is that individual, whatever the others are. *)
Theorem champion_first_minimum tol p i :
  pop_inv p →
  get_nobj (m_prob p) = 1 →
  get_nec (m_prob p) = 0 → get_nic (m_prob p) = 0 →
  (champion tol p).1 = Ok i →
  ∃ a, objective p i = Some a ∧
    (∀ j b, j < i → objective p j = Some b → is_nan b = false →
            dlt a b = true) ∧
    ((∀ j b, objective p j = Some b → is_nan b = false) →
     ∀ j b, objective p j = Some b → dle a b = true) ∧
    (∀ b, objective p 0 = Some b → is_nan b = true → i = 0).
Proof.
  intros Hinv Hnobj Hnec Hnic.
  pose proof (single_objective_fitness p) as Hone.
  rewrite champion_unfold, (pop_inv_aligned p Hinv). simpl.
  destruct (m_ID p) as [|id ids] eqn:HID; [done|]. simpl length.
  unfold get_nc. rewrite Hnobj, Hnec, Hnic. simpl.
  set (n := S (length ids)) in *.
  set (comp := fun idx1 idx2 => vec_lt (m_f p !!! idx1) (m_f p !!! idx2)).
  intros [= <-].
  assert (Hcomp : ∀ i j a b, i < n → j < n →
            objective p i = Some a → objective p j = Some b →
            comp i j = dlt a b).
  { intros i j a b Hi Hj Ha Hb. unfold comp.
    destruct (Hone i Hinv Hnobj Hnec Hnic Hi) as (a' & _ & -> & Ha').
    destruct (Hone j Hinv Hnobj Hnec Hnic Hj) as (b' & _ & -> & Hb').
    rewrite vec_lt_singleton. congruence. }
  set (good := fun j => ∃ b, objective p j = Some b ∧ is_nan b = false).
  assert (Hirr : ∀ a, a < n → comp a a = false).
  { intros i Hi. destruct (Hone i Hinv Hnobj Hnec Hnic Hi) as (a & _ & _ & Ha).
    rewrite (Hcomp i i a a) by done. apply dlt_irrefl. }
  assert (Htr : ∀ a b c, a < n → b < n → c < n →
            comp a b = true → comp b c = true → comp a c = true).
  { intros i j k Hi Hj Hk.
    destruct (Hone i Hinv Hnobj Hnec Hnic Hi) as (a & _ & _ & Ha).
    destruct (Hone j Hinv Hnobj Hnec Hnic Hj) as (b & _ & _ & Hb).
    destruct (Hone k Hinv Hnobj Hnec Hnic Hk) as (c & _ & _ & Hc).
    rewrite (Hcomp i j a b), (Hcomp j k b c), (Hcomp i k a c) by done.
    apply dlt_trans. }
  assert (Hco : ∀ a b c, a < n → b < n → c < n →
            comp a b = true → comp c b = false → good c → comp a c = true).
  { intros i j k Hi Hj Hk.
    destruct (Hone i Hinv Hnobj Hnec Hnic Hi) as (a & _ & _ & Ha).
    destruct (Hone j Hinv Hnobj Hnec Hnic Hj) as (b & _ & _ & Hb).
    destruct (Hone k Hinv Hnobj Hnec Hnic Hk) as (c & _ & _ & Hc).
    rewrite (Hcomp i j a b), (Hcomp k j c b), (Hcomp i k a c) by done.
    intros H1 H2 (c' & Hc' & Hnan). rewrite Hc in Hc'. injection Hc' as <-.
    by apply (dlt_le_trans_nan a b c). }
  assert (Hall : Forall (fun i => i < n) (seq 1 (length ids))).
  { apply Forall_forall. intros i Hi. apply elem_of_seq in Hi. unfold n. lia. }
  assert (Hsorted : StronglySorted lt (0 :: seq 1 (length ids))).
  { change (0 :: seq 1 (length ids)) with (seq 0 n).
    generalize 0 n. intros a m. revert a.
    induction m as [|m IH]; intros a; simpl; [constructor|].
    apply SSorted_cons; [apply IH|].
    apply Forall_forall. intros k Hk. apply elem_of_seq in Hk. lia. }
  destruct (min_element_from_minimal comp (fun i => i < n) Hirr Htr
              (seq 1 (length ids)) 0 ltac:(unfold n; lia) Hall)
    as (_ & Hin & Hmin).
  pose proof (min_element_from_stays comp 0 (seq 1 (length ids))) as Hstays.
  set (r := min_element_from comp 0 (seq 1 (length ids))) in *.
  assert (Hr : r < n).
  { change (0 :: seq 1 (length ids)) with (seq 0 n) in Hin.
    apply elem_of_seq in Hin. lia. }
  assert (Hrange : ∀ j b, objective p j = Some b → j < n).
  { intros j b Hb. unfold objective in Hb.
    destruct (m_f p !! j) eqn:Hlk; [|done].
    apply lookup_lt_Some in Hlk. destruct Hinv as (_ & Hf & _).
    rewrite Hf, HID in Hlk. done. }
  destruct (Hone r Hinv Hnobj Hnec Hnic Hr) as (a & _ & _ & Ha).
  exists a. split; [done|]. split; [|split].
  - intros j b Hj Hb Hnan.
    assert (Hjn : j < n) by lia.
    rewrite <- (Hcomp r j a b) by done.
    apply (min_element_from_first comp (fun i => i < n) good
             (seq 1 (length ids)) 0 Hirr Htr Hco ltac:(unfold n; lia)
             Hall Hsorted).
    + change (0 :: seq 1 (length ids)) with (seq 0 n). apply elem_of_seq. lia.
    + done.
    + by exists b.
  - intros Hnonan j b Hb.
    pose proof (Hrange j b Hb) as Hjn.
    apply dle_of_not_dlt; [by apply (Hnonan r)|by apply (Hnonan j)|].
    rewrite <- (Hcomp j r b a) by done. apply Hmin.
    change (0 :: seq 1 (length ids)) with (seq 0 n). apply elem_of_seq. lia.
  - intros b Hb Hnan. apply Hstays. intros y Hy.
    apply elem_of_seq in Hy.
    assert (Hyn : y < n) by (unfold n; lia).
    destruct (Hone y Hinv Hnobj Hnec Hnic Hyn) as (c & _ & _ & Hc).
    rewrite (Hcomp y 0 c b) by (done || unfold n; lia).
    destruct b; try done. apply dlt_nan_r.
Qed.

(** On an unconstrained problem the tolerance is never consulted: both
    overloads of [champion] give the same outcome for every tolerance. *)
Theorem champion_tolerance_irrelevant (t : double) (tol tol' : vector_double) p :
  get_nc (m_prob p) = 0 →
  champion_scalar t p = champion tol p ∧ champion tol p = champion tol' p.
Proof.
  intros Hnc. unfold champion_scalar, bind, get.
  rewrite !champion_unfold, Hnc. done.
Qed.

(** *** Composition of [set_xf] *)

Lemma pop_inv_overwritten' p i x f :
  pop_inv p → i < length (m_ID p) →
  length x = get_nx (m_prob p) → length f = get_nf (m_prob p) →
  pop_inv (overwritten p i x f).
Proof.
  intros Hinv Hi Hlx Hlf. destruct (pop_inv_slot p i Hinv Hi) as [Hxi Hfi].
  apply pop_inv_overwritten; congruence.
Qed.

(** Two [set_xf] in a row: at the same index the second one wins; at
    different indices the order does not matter. *)
Theorem set_xf_compose i j x f y g p :
  pop_inv p → i < length (m_ID p) → j < length (m_ID p) →
  length x = get_nx (m_prob p) → length f = get_nf (m_prob p) →
  length y = get_nx (m_prob p) → length g = get_nf (m_prob p) →
  (i = j →
   (let! _ := set_xf i x f in set_xf j y g) p = set_xf j y g p) ∧
  (i ≠ j →
   (let! _ := set_xf i x f in set_xf j y g) p
   = (let! _ := set_xf j y g in set_xf i x f) p).
Proof.
  intros Hinv Hi Hj Hlx Hlf Hly Hlg.
  destruct (pop_inv_slot p i Hinv Hi) as [Hxi Hfi].
  destruct (pop_inv_slot p j Hinv Hj) as [Hxj Hfj].
  pose proof (pop_inv_overwritten' p i x f Hinv Hi Hlx Hlf) as Hinv1.
  pose proof (pop_inv_overwritten' p j y g Hinv Hj Hly Hlg) as Hinv2.
  unfold bind.
  rewrite (set_xf_ok i x f p), (set_xf_ok j y g p) by done.
  rewrite (set_xf_ok j y g (overwritten p i x f)),
    (set_xf_ok i x f (overwritten p j y g)) by done.
  destruct Hinv as (Hx & Hf & _).
  split.
  - intros <-. f_equal. unfold overwritten. simpl.
    rewrite !std_copy_same_length
      by (rewrite ?list_lookup_total_insert_eq by lia;
          rewrite ?std_copy_same_length; congruence).
    by rewrite !list_insert_insert_eq.
  - intros Hne. f_equal. unfold overwritten. simpl.
    rewrite !list_lookup_total_insert_ne by done.
    f_equal; by apply list_insert_insert_ne.
Qed.
End PopulationMoreProperties.

(** ** Further properties of the archipelago *)

Section ArchipelagoMoreProperties.
Context {E : Type} `{!RandomEngine E} `{!Utils}.
Context {algorithm : Type} {topology : Type} `{!Topology topology}.
Implicit Types (w : world E algorithm topology).
Implicit Types (arch : archipelago E algorithm topology).

(** *** The index map that [load] rebuilds *)

Lemma emplace_lookup k v (m : gmap N nat) a :
  emplace k v m !! a =
    match m !! a with
    | Some u => Some u
    | None => if decide (k = a) then Some v else None
    end.
Proof.
  unfold emplace. destruct (m !! k) as [u|] eqn:Hk.
  - destruct (m !! a) as [u'|] eqn:Ha; [done|].
    case_decide; [congruence|done].
  - rewrite lookup_insert. case_decide as Hka.
    + subst. by rewrite Hk.
    + by destruct (m !! a).
Qed.

(** The loop maps an address that the map does not hold yet to the first
    position at which it occurs, and leaves the entries of the map as they
    are. *)
Lemma map_islands_find (l : list (unique_ptr (island E algorithm))) k m a :
  map_islands l k m !! a =
    match m !! a with
    | Some u => Some u
    | None => (fun r => k + r.1) <$> list_find (fun q => ptr_get q = a) l
    end.
Proof.
  revert k m. induction l as [|q l IH]; intros k m.
  { simpl. by destruct (m !! a). }
  simpl map_islands. rewrite IH, emplace_lookup.
  destruct (m !! a) as [u|]; [done|].
  cbn [list_find]. case_decide as Hq.
  - simpl. f_equal. lia.
  - destruct (list_find _ l) as [[i r]|]; simpl; [f_equal; lia|done].
Qed.

(** After a successful [load] the index map holds, for every address, the
    first position of the sequence of islands at which that address
    occurs, and nothing for an address that is not the address of a loaded
    island. *)
Theorem load_idx_map_lookup {Ar : Type} `{!Archive E algorithm topology Ar}
    (ar ar' : Ar) arch (a : N) :
  (load ar arch).1 = Ok ar' →
  m_idx_map (load ar arch).2 !! a
    = fst <$> list_find (fun q => ptr_get q = a) (m_islands (load ar arch).2) ∧
  (a ∉ ptr_get <$> m_islands (load ar arch).2 →
   m_idx_map (load ar arch).2 !! a = None).
Proof.
  unfold load, bind, call, move_assign, put, ret, throw.
  destruct (read_islands ar) as [[islands ar1]|k]; simpl; [|done].
  destruct (read_migrants ar1) as [[migrants ar2]|k]; simpl; [|done].
  destruct (read_topology ar2) as [[topo ar3]|k]; simpl; [|done].
  intros _. rewrite map_islands_find, lookup_empty.
  assert (Heq : (fun r : nat * unique_ptr (island E algorithm) => 0 + r.1)
                <$> list_find (fun q => ptr_get q = a) islands
                = fst <$> list_find (fun q => ptr_get q = a) islands)
    by (by destruct (list_find _ islands) as [[i r]|]).
  rewrite Heq. split; [done|]. intros Hnot.
  destruct (list_find _ islands) as [[i q]|] eqn:Hfind; [|done].
  apply list_find_Some in Hfind as (Hi & Hq & _). exfalso. apply Hnot.
  rewrite <- Hq. apply list_elem_of_fmap_2.
  by apply list_elem_of_lookup_2 with i.
Qed.
(** *** The islands that [n_ctor] builds *)

Lemma draws_take n k eng :
  mt19937.draws n eng = take n (mt19937.draws (n + k) eng).
Proof.
  revert eng. induction n as [|n IH]; intros eng; [done|].
  cbn [mt19937.draws Nat.add]. destruct (mt19937.udist eng) as [v eng'].
  cbn [take]. by rewrite <- IH.
Qed.

Lemma archi_push_back_island a prob pop_size s w w' :
  archi_push_back a prob pop_size s w = (Ok tt, w') →
  ∃ ptr, m_islands (this w') = m_islands (this w) ++ [ptr] ∧
         island_ctor a prob pop_size s = Ok (ptr_deref ptr).
Proof.
  unfold archi_push_back, bind, make_unique_island.
  destruct (island_ctor a prob pop_size s) as [isl|e|]; [|done..].
  unfold push_back_impl, bind, get, put, call. simpl.
  destruct (N.of_nat _ =? size_type_max)%N; [done|].
  destruct (topology_push_back _) as [t|k]; [|done].
  intros [= <-]. simpl. by eexists.
Qed.

Lemma n_ctor_loop_islands n eng a prob size w w' :
  n_ctor_loop n eng a prob size w = (Ok tt, w') →
  ∃ new, m_islands (this w') = m_islands (this w) ++ new ∧
    Forall2 (fun ptr s => island_ctor a prob (Z.to_nat size) s
                          = Ok (ptr_deref ptr))
            new (mt19937.draws n eng).
Proof.
  revert eng w. induction n as [|n IH]; intros eng w.
  - simpl. intros [= <-]. exists []. by rewrite app_nil_r.
  - cbn [n_ctor_loop mt19937.draws]. unfold bind at 1.
    unfold numeric_cast_size_type.
    destruct (_ || _); [done|]. unfold ret at 1.
    destruct (mt19937.udist eng) as [s eng'].
    unfold bind.
    destruct (archi_push_back _ _ _ _ w) as [[[]|e|] w1] eqn:Hpush; [|done..].
    intros Hloop. apply IH in Hloop as (new & Hnew & Hall).
    apply archi_push_back_island in Hpush as (ptr & Hptr & Hisl).
    exists (ptr :: new). split; [by rewrite Hnew, Hptr, <- app_assoc|].
    by apply Forall2_cons.
Qed.

Lemma archipelago_n_built n a prob size seed free_store arch :
  archipelago_n n a prob size seed free_store = Ok arch →
  Forall2 (fun ptr s => island_ctor a prob (Z.to_nat size) s
                        = Ok (ptr_deref ptr))
          (m_islands arch)
          (mt19937.draws n (mt19937.seed (seed mod 2 ^ 32))).
Proof.
  unfold archipelago_n, n_ctor.
  destruct (n_ctor_loop _ _ _ _ _ _) as [[[]|e|] w'] eqn:Hloop; [|done..].
  intros [= <-]. apply n_ctor_loop_islands in Hloop as (new & -> & Hall).
  done.
Qed.

(** Every island of the archipelago that the seeded constructor returns
    holds the algorithm it was given and a population of exactly [size]
    individuals, bound to the problem it was given, that satisfies the
    invariant of the data model and stores the fitness of each of its
    decision vectors. *)
Theorem archipelago_n_islands n a prob size seed free_store arch i ptr :
  archipelago_n n a prob size seed free_store = Ok arch →
  m_islands arch !! i = Some ptr →
  let pop := isl_pop (ptr_deref ptr) in
  isl_algo (ptr_deref ptr) = a ∧ m_prob pop = prob ∧
  length (m_ID pop) = Z.to_nat size ∧ pop_inv pop ∧ fitness_consistent pop.
Proof.
  intros Hrun Hi. apply archipelago_n_built in Hrun.
  destruct (Forall2_lookup_l _ _ _ _ _ Hrun Hi) as (s & _ & Hisl).
  unfold island_ctor in Hisl.
  destruct (population_ctor prob (Z.to_nat size) s) as [pop|e|] eqn:Hpop;
    [|done..].
  injection Hisl as <-. simpl.
  destruct (population_ctor_shape _ _ _ _ Hpop) as (Hn & _ & _ & Hp & _).
  repeat split; try done.
  - by apply population_ctor_pop_inv in Hpop as (? & ? & ? & ?).
  - by apply population_ctor_pop_inv in Hpop as (? & ? & ? & ?).
  - by apply population_ctor_pop_inv in Hpop as (? & ? & ? & ?).
  - by apply population_ctor_pop_inv in Hpop as (? & ? & ? & ?).
  - by apply population_ctor_consistent in Hpop.
Qed.

(** With no island to build the seeded constructor returns the empty
    archipelago, whatever the size and the seed; with at least one island
    and a size that [population::size_type] cannot hold it fails with
    [bad_numeric_cast]. *)
Theorem archipelago_n_edges n (a : algorithm) prob size seed free_store :
  archipelago_n (E := E) (topology := topology) 0 a prob size seed free_store
    = Ok archipelago_default ∧
  ((size < 0 ∨ 2 ^ 64 ≤ size)%Z →
   archipelago_n (E := E) (topology := topology)
     (S n) a prob size seed free_store = Throw bad_numeric_cast).
Proof.
  split; [done|]. intros Hsize. unfold archipelago_n, n_ctor.
  cbn [n_ctor_loop]. unfold bind at 1, numeric_cast_size_type.
  assert (Hbad : ((size <? 0) || (Z.of_N size_type_max <? size))%Z = true).
  { apply orb_true_iff. unfold size_type_max.
    destruct Hsize; [left|right]; apply Z.ltb_lt; lia. }
  by rewrite Hbad.
Qed.

(** The population seeds depend on the seed argument through its value as
    [unsigned] only, and on nothing else that the constructor is given:
    two archipelagos built from seeds that agree modulo [2^32] give their
    islands the same seeds, position by position, whatever the algorithm,
    the problem, the size and the number of islands. *)
Theorem island_seeds_stream n n' a a' prob prob' size size' seed seed'
    free_store free_store' arch arch' :
  archipelago_n n a prob size seed free_store = Ok arch →
  archipelago_n n' a' prob' size' seed' free_store' = Ok arch' →
  (seed mod 2 ^ 32 = seed' mod 2 ^ 32)%Z → n ≤ n' →
  island_seeds arch = take n (island_seeds arch').
Proof.
  intros Hrun Hrun' Hseed Hn.
  apply archipelago_n_draws in Hrun, Hrun'. rewrite Hrun, Hrun', Hseed.
  replace n' with (n + (n' - n)) by lia. apply draws_take.
Qed.
End ArchipelagoMoreProperties.

(** ** Sparsity and gradient estimation *)

Section Estimation.
Context (f : vector_double → user_result vector_double).
Context (x : vector_double) (dx : double).

Lemma moved_restore j v : j < length x → <[j := x !!! j]> (moved x j v) = x.
Proof.
  intros Hj. unfold moved. rewrite list_insert_insert_eq.
  apply list_insert_id, list_lookup_lookup_total_lt, Hj.
Qed.

Lemma forward_restore j : j < length x → <[j := x !!! j]> (forward x dx j) = x.
Proof. apply moved_restore. Qed.

Lemma backward_restore j :
  j < length x → <[j := x !!! j]> (backward x dx j) = x.
Proof. apply moved_restore. Qed.

(** *** [estimate_sparsity] *)

Lemma sparsity_column_spec f0 f_new j retval :
  sparsity_column f0 f_new j retval
  = retval ++ ((fun i => (i, j)) <$>
                 filter (fun i => dne (f_new !!! i) (f0 !!! i) = true)
                        (seq 0 (length f_new))).
Proof.
  unfold sparsity_column. generalize (seq 0 (length f_new)). intros l.
  revert retval. induction l as [|i l IH]; intros retval; simpl.
  - by rewrite app_nil_r.
  - rewrite IH, filter_cons.
    destruct (dne (f_new !!! i) (f0 !!! i)) eqn:Hne.
    + rewrite decide_True by done. by rewrite fmap_cons, <- app_assoc.
    + rewrite decide_False by congruence. done.
Qed.

Lemma sparsity_loop_spec f0 k a retval xn r :
  a + k ≤ length x →
  sparsity_loop f x dx f0 (seq a k) x retval = Ok (xn, r) →
  xn = x ∧ ∃ new, r = retval ++ new ∧ NoDup new ∧
    (∀ j, a ≤ j < a + k →
       ∃ fj, f (forward x dx j) = Returns fj ∧ length fj = length f0) ∧
    ∀ i j, (i, j) ∈ new ↔
      a ≤ j < a + k ∧ i < length f0 ∧
      ∃ fj, f (forward x dx j) = Returns fj ∧ dne (fj !!! i) (f0 !!! i) = true.
Proof.
  revert a retval. induction k as [|k IH]; intros a retval Hak.
  { simpl. intros [= <- <-]. split; [done|]. exists [].
    rewrite app_nil_r. split; [done|]. split; [apply NoDup_nil_2|].
    split; [intros j; lia|]. intros i j. split; [by intros ?%elem_of_nil|lia]. }
  cbn [seq sparsity_loop].
  change (<[a := dadd (x !!! a) (step x dx a)]> x) with (forward x dx a).
  destruct (f (forward x dx a)) as [fa|e] eqn:Hfa; [|done].
  destruct (Nat.eqb_spec (length fa) (length f0)) as [Hlen|Hlen]; simpl;
    [|done].
  rewrite forward_restore by lia. rewrite sparsity_column_spec.
  intros Hloop. apply IH in Hloop as (-> & new & -> & Hnd & Hev & Hnew);
    [|lia].
  split; [done|].
  set (col := (fun i => (i, a)) <$>
                filter (fun i => dne (fa !!! i) (f0 !!! i) = true)
                       (seq 0 (length fa))).
  assert (Hcol : ∀ i j, (i, j) ∈ col ↔
            j = a ∧ i < length f0 ∧ dne (fa !!! i) (f0 !!! i) = true).
  { intros i j. unfold col. rewrite list_elem_of_fmap. split.
    - intros (i' & [= -> ->] & Hi'). apply list_elem_of_filter in Hi' as [Hne Hi'].
      apply elem_of_seq in Hi'. split; [done|]. split; [lia|done].
    - intros (-> & Hi & Hne). exists i. split; [done|].
      apply list_elem_of_filter. split; [done|]. apply elem_of_seq. lia. }
  exists (col ++ new). split; [by rewrite app_assoc|].
  split; [|split].
  - apply NoDup_app. split; [|split; [|done]].
    + unfold col. apply NoDup_fmap_2; [by intros i i' [= ->]|].
      apply NoDup_filter, NoDup_seq.
    + intros [i j] Hc Hn. apply Hcol in Hc as (-> & _).
      apply Hnew in Hn as (Hj & _). lia.
  - intros j Hj. destruct (decide (j = a)) as [->|Hne]; [by exists fa|].
    apply Hev. lia.
  - intros i j. rewrite elem_of_app, Hcol, Hnew. split.
    + intros [(-> & Hi & Hne)|(Hj & Hi & fj & Hfj & Hne)].
      * split; [lia|]. split; [done|]. by exists fa.
      * split; [lia|]. split; [done|]. by exists fj.
    + intros (Hj & Hi & fj & Hfj & Hne).
      destruct (decide (j = a)) as [->|Hja].
      * left. rewrite Hfa in Hfj. injection Hfj as ->. done.
      * right. split; [lia|]. split; [done|]. by exists fj.
Qed.

Lemma pair_le_total : Total pair_le.
Proof. intros [a b] [c d]. unfold pair_le. simpl. lia. Qed.

Lemma pair_le_trans : Transitive pair_le.
Proof. intros [a b] [c d] [e g]. unfold pair_le. simpl. lia. Qed.

(** What a returned sparsity pattern contains. The function returned for
    [x] and for every moved point, each time a vector of the dimension of
    [f(x)]; the pattern holds the pair [(i, j)] exactly when moving
    variable [j] changes component [i] of the fitness; it is sorted in the
    lexicographic order and has no duplicates. *)
Theorem estimate_sparsity_pattern sp :
  estimate_sparsity f x dx = Ok sp →
  ∃ f0, f x = Returns f0 ∧
    (∀ j, j < length x →
       ∃ fj, f (forward x dx j) = Returns fj ∧ length fj = length f0) ∧
    (∀ i j, (i, j) ∈ sp ↔
       j < length x ∧ i < length f0 ∧
       ∃ fj, f (forward x dx j) = Returns fj ∧ dne (fj !!! i) (f0 !!! i) = true) ∧
    StronglySorted pair_le sp ∧ NoDup sp.
Proof.
  unfold estimate_sparsity. destruct (f x) as [f0|e]; [|done].
  destruct (sparsity_loop _ _ _ _ _ _ _) as [[xn r]|e|] eqn:Hloop; [|done..].
  intros [= <-]. exists f0. split; [done|].
  apply sparsity_loop_spec in Hloop as (_ & new & -> & Hnd & Hev & Hnew);
    [|simpl; lia].
  simpl in *. unfold std_sort.
  split; [intros j Hj; apply Hev; lia|].
  split; [|split].
  - intros i j. rewrite merge_sort_Permutation, Hnew.
    split; intros (Hj & H'); (split; [lia|done]).
  - apply StronglySorted_merge_sort; [apply pair_le_trans|apply pair_le_total].
  - by rewrite merge_sort_Permutation.
Qed.

Lemma sparsity_loop_outcome f0 k a retval :
  a + k ≤ length x →
  (∀ j, a ≤ j < a + k → ∃ fj, f (forward x dx j) = Returns fj) →
  (∃ xn r, sparsity_loop f x dx f0 (seq a k) x retval = Ok (xn, r)) ∨
  (sparsity_loop f x dx f0 (seq a k) x retval
     = Throw (invalid_argument sparsity_msg) ∧
   ∃ j fj, a ≤ j < a + k ∧ f (forward x dx j) = Returns fj ∧
           length fj ≠ length f0).
Proof.
  revert a retval. induction k as [|k IH]; intros a retval Hak Hret.
  { left. by eexists _, _. }
  cbn [seq sparsity_loop].
  change (<[a := dadd (x !!! a) (step x dx a)]> x) with (forward x dx a).
  destruct (Hret a ltac:(lia)) as [fa Hfa]. rewrite Hfa.
  destruct (Nat.eqb_spec (length fa) (length f0)) as [Hlen|Hlen]; simpl.
  - rewrite forward_restore by lia.
    destruct (IH (S a) (sparsity_column f0 fa a retval) ltac:(lia))
      as [Hok|(Hthrow & j & fj & Hj & Hfj & Hne)].
    + intros j Hj. apply Hret. lia.
    + by left.
    + right. split; [done|]. exists j, fj. split; [lia|done].
  - right. split; [done|]. exists a, fa. split; [lia|done].
Qed.

(** How [estimate_sparsity] fails. An exception of the function at [x]
    propagates. When the function returns at [x] and at every moved point,
    the call fails, with [std::invalid_argument], exactly when the fitness
    at some moved point has another dimension than the fitness at [x]; it
    returns a pattern otherwise. *)
Theorem estimate_sparsity_failure :
  (∀ k, f x = Raises k →
        estimate_sparsity f x dx = Throw (unspecified k)) ∧
  (∀ f0, f x = Returns f0 →
     (∀ j, j < length x → ∃ fj, f (forward x dx j) = Returns fj) →
     (estimate_sparsity f x dx = Throw (invalid_argument sparsity_msg) ↔
        ∃ j fj, j < length x ∧ f (forward x dx j) = Returns fj ∧
                length fj ≠ length f0) ∧
     (is_invalid_argument (estimate_sparsity f x dx) = false →
        is_ok (estimate_sparsity f x dx) = true)).
Proof.
  unfold estimate_sparsity. split; [by intros k ->|].
  intros f0 -> Hret.
  destruct (sparsity_loop_outcome f0 (length x) 0 [] ltac:(simpl; lia))
    as [(xn & r & Hok)|(Hthrow & j & fj & Hj & Hfj & Hne)].
  - intros j Hj. apply Hret. lia.
  - pose proof Hok as Hspec.
    apply sparsity_loop_spec in Hspec as (_ & new & _ & _ & Hev & _);
      [|simpl; lia].
    rewrite Hok. split; [|done]. split; [done|].
    intros (j & fj & Hj & Hfj & Hne).
    destruct (Hev j ltac:(lia)) as (fj' & Hfj' & Hlen). congruence.
  - rewrite Hthrow. split; [|done]. split; [|done].
    intros _. exists j, fj. split; [lia|done].
Qed.

(** *** [estimate_gradient] *)

Lemma cell_inj n j i j' i' :
  j < n → j' < n → j + i * n = j' + i' * n → j = j' ∧ i = i'.
Proof.
  intros Hj Hj' Heq.
  assert (Hmod : (j + i * n) mod n = (j' + i' * n) mod n) by congruence.
  rewrite !Nat.Div0.mod_add, !Nat.mod_small in Hmod by done.
  split; [done|]. subst j'. nia.
Qed.

(** A column of the dense gradient: the cells [j + i * n]. *)
Lemma fill_column_length (v : nat → double) n j l (g : vector_double) :
  length (fold_left (fun g i => <[j + i * n := v i]> g) l g) = length g.
Proof.
  revert g. induction l as [|i l IH]; intros g; simpl; [done|].
  by rewrite IH, length_insert.
Qed.

Lemma fill_column_other (v : nat → double) n j l (g : vector_double) c :
  (∀ i, i ∈ l → c ≠ j + i * n) →
  fold_left (fun g i => <[j + i * n := v i]> g) l g !! c = g !! c.
Proof.
  revert g. induction l as [|i l IH]; intros g Hc; simpl; [done|].
  rewrite IH by (intros i' Hi'; by apply Hc, list_elem_of_further).
  apply list_lookup_insert_ne. intros Heq. by apply (Hc i), eq_sym;
    [apply list_elem_of_here|].
Qed.

Lemma fill_column_hit (v : nat → double) n j l (g : vector_double) i :
  j < n → i ∈ l → j + i * n < length g →
  fold_left (fun g i => <[j + i * n := v i]> g) l g !! (j + i * n)
  = Some (v i).
Proof.
  intros Hj. revert g. induction l as [|i0 l IH]; intros g Hi Hlen;
    [by apply elem_of_nil in Hi|].
  simpl. destruct (decide (i ∈ l)) as [Hin|Hnin].
  - apply IH; [done|]. by rewrite length_insert.
  - apply elem_of_cons in Hi as [->|Hi]; [|done].
    rewrite fill_column_other.
    + by apply list_lookup_insert_eq.
    + intros i' Hi' Heq. assert (i0 = i') by nia. congruence.
Qed.

Lemma gradient_loop_spec f0 k a g xr xl g' :
  a + k ≤ length x → length g = length f0 * length x →
  gradient_loop f x dx f0 (seq a k) x x g = Ok (xr, xl, g') →
  xr = x ∧ xl = x ∧ length g' = length f0 * length x ∧
  ∀ j, j < length x →
    (a ≤ j < a + k →
     ∃ fr fl, f (forward x dx j) = Returns fr ∧
       f (backward x dx j) = Returns fl ∧
       length fr = length f0 ∧ length fl = length f0 ∧
       ∀ i, i < length f0 →
         g' !! (j + i * length x)
         = Some (ddiv (ddiv (dsub (fr !!! i) (fl !!! i)) d2) (step x dx j))) ∧
    (¬ (a ≤ j < a + k) →
     ∀ i, g' !! (j + i * length x) = g !! (j + i * length x)).
Proof.
  revert a g. induction k as [|k IH]; intros a g Hak Hg.
  { simpl. intros [= <- <- <-]. split; [done|]. split; [done|].
    split; [done|]. intros j Hj. split; [intros ?; lia|done]. }
  cbn [seq gradient_loop].
  change (<[a := dadd (x !!! a) (step x dx a)]> x) with (forward x dx a).
  change (<[a := dsub (x !!! a) (step x dx a)]> x) with (backward x dx a).
  destruct (f (forward x dx a)) as [fr|e] eqn:Hfr; [|done].
  destruct (f (backward x dx a)) as [fl|e] eqn:Hfl; [|done].
  destruct (Nat.eqb_spec (length fr) (length f0)) as [Hlr|Hlr]; simpl; [|done].
  destruct (Nat.eqb_spec (length fl) (length f0)) as [Hll|Hll]; simpl; [|done].
  rewrite forward_restore, backward_restore by lia.
  set (g1 := gradient_column fr fl (step x dx a) (length x) a g).
  assert (Hg1 : length g1 = length f0 * length x)
    by (unfold g1, gradient_column; by rewrite fill_column_length).
  intros Hloop. apply IH in Hloop as (-> & -> & Hlen & Hcols); [|lia|done].
  split; [done|]. split; [done|]. split; [done|]. intros j Hj. split.
  - intros Hrange. destruct (decide (j = a)) as [->|Hne].
    + exists fr, fl. repeat split; try done. intros i Hi.
      destruct (Hcols a Hj) as [_ Hkeep]. rewrite Hkeep by lia.
      unfold g1, gradient_column.
      apply (fill_column_hit
               (fun i => ddiv (ddiv (dsub (fr !!! i) (fl !!! i)) d2)
                              (step x dx a))); [done| |].
      * apply elem_of_seq. lia.
      * rewrite Hg. nia.
    + destruct (Hcols j Hj) as [Hset _]. apply Hset. lia.
  - intros Hout i. destruct (Hcols j Hj) as [_ Hkeep].
    rewrite Hkeep by lia. unfold g1, gradient_column.
    apply fill_column_other. intros i' _ Heq.
    apply cell_inj in Heq as [-> _]; lia.
Qed.

(** The layout of a returned gradient. The function returned for [x] and
    for the two moved points of every variable, each time a vector of the
    dimension [m] of [f(x)]; the gradient has [m * |x|] entries, and the
    entry [j + i * |x|] is the central difference
    [(f(x + h e_j)[i] - f(x - h e_j)[i]) / 2 / h] of component [i] along
    variable [j]. *)
Theorem estimate_gradient_layout g :
  estimate_gradient f x dx = Ok g →
  ∃ f0, f x = Returns f0 ∧ length g = length f0 * length x ∧
    ∀ j, j < length x →
      ∃ fr fl, f (forward x dx j) = Returns fr ∧
        f (backward x dx j) = Returns fl ∧
        length fr = length f0 ∧ length fl = length f0 ∧
        ∀ i, i < length f0 →
          g !! (j + i * length x)
          = Some (ddiv (ddiv (dsub (fr !!! i) (fl !!! i)) d2) (step x dx j)).
Proof.
  unfold estimate_gradient. destruct (f x) as [f0|e]; [|done].
  destruct (gradient_loop _ _ _ _ _ _ _ _) as [[[xr xl] g']|e|] eqn:Hloop;
    [|done..].
  intros [= <-]. exists f0. split; [done|].
  apply gradient_loop_spec in Hloop as (_ & _ & Hlen & Hcols);
    [|simpl; lia|by rewrite length_replicate].
  split; [done|]. intros j Hj. destruct (Hcols j Hj) as [Hset _].
  apply Hset. lia.
Qed.

Lemma gradient_loop_outcome f0 k a g :
  a + k ≤ length x →
  (∀ j, a ≤ j < a + k →
     ∃ fr fl, f (forward x dx j) = Returns fr ∧
              f (backward x dx j) = Returns fl) →
  (∃ r, gradient_loop f x dx f0 (seq a k) x x g = Ok r) ∨
  (gradient_loop f x dx f0 (seq a k) x x g
     = Throw (invalid_argument gradient_msg) ∧
   ∃ j fr fl, a ≤ j < a + k ∧ f (forward x dx j) = Returns fr ∧
     f (backward x dx j) = Returns fl ∧
     (length fr ≠ length f0 ∨ length fl ≠ length f0)).
Proof.
  revert a g. induction k as [|k IH]; intros a g Hak Hret.
  { left. by eexists. }
  cbn [seq gradient_loop].
  change (<[a := dadd (x !!! a) (step x dx a)]> x) with (forward x dx a).
  change (<[a := dsub (x !!! a) (step x dx a)]> x) with (backward x dx a).
  destruct (Hret a ltac:(lia)) as (fr & fl & Hfr & Hfl). rewrite Hfr, Hfl.
  destruct (Nat.eqb_spec (length fr) (length f0)) as [Hlr|Hlr]; simpl.
  2:{ right. split; [done|]. exists a, fr, fl. split; [lia|]. by eauto. }
  destruct (Nat.eqb_spec (length fl) (length f0)) as [Hll|Hll]; simpl.
  2:{ right. split; [done|]. exists a, fr, fl. split; [lia|]. by eauto. }
  rewrite forward_restore, backward_restore by lia.
  destruct (IH (S a) (gradient_column fr fl (step x dx a) (length x) a g)
              ltac:(lia))
    as [Hok|(Hthrow & j & fr' & fl' & Hj & Hrest)].
  - intros j Hj. apply Hret. lia.
  - by left.
  - right. split; [done|]. exists j, fr', fl'. split; [lia|done].
Qed.

(** How [estimate_gradient] fails. An exception of the function at [x]
    propagates. When the function returns at [x] and at both moved points
    of every variable, the call fails, with [std::invalid_argument],
    exactly when the fitness at some moved point has another dimension
    than the fitness at [x]; it returns a gradient otherwise. *)
Theorem estimate_gradient_failure :
  (∀ k, f x = Raises k →
        estimate_gradient f x dx = Throw (unspecified k)) ∧
  (∀ f0, f x = Returns f0 →
     (∀ j, j < length x →
        ∃ fr fl, f (forward x dx j) = Returns fr ∧
                 f (backward x dx j) = Returns fl) →
     (estimate_gradient f x dx = Throw (invalid_argument gradient_msg) ↔
        ∃ j fr fl, j < length x ∧ f (forward x dx j) = Returns fr ∧
          f (backward x dx j) = Returns fl ∧
          (length fr ≠ length f0 ∨ length fl ≠ length f0)) ∧
     (is_invalid_argument (estimate_gradient f x dx) = false →
        is_ok (estimate_gradient f x dx) = true)).
Proof.
  unfold estimate_gradient. split; [by intros k ->|].
  intros f0 -> Hret.
  destruct (gradient_loop_outcome f0 (length x) 0
              (replicate (length f0 * length x) d0) ltac:(simpl; lia))
    as [([[xr xl] g'] & Hok)|(Hthrow & j & fr & fl & Hj & Hfr & Hfl & Hne)].
  - intros j Hj. apply Hret. lia.
  - pose proof Hok as Hspec.
    apply gradient_loop_spec in Hspec as (_ & _ & _ & Hcols);
      [|simpl; lia|by rewrite length_replicate].
    rewrite Hok. split; [|done]. split; [done|].
    intros (j & fr & fl & Hj & Hfr & Hfl & Hne).
    destruct (Hcols j Hj) as [Hset _].
    destruct (Hset ltac:(lia)) as (fr' & fl' & Hfr' & Hfl' & Hlr & Hll & _).
    rewrite Hfr in Hfr'. rewrite Hfl in Hfl'.
    injection Hfr' as <-. injection Hfl' as <-. by destruct Hne.
  - rewrite Hthrow. split; [|done]. split; [|done].
    intros _. exists j, fr, fl. split; [lia|done].
Qed.

(** *** [estimate_gradient_h] *)

Lemma stencil_restore_move j h :
  j < length x →
  stencil_restore x j (stencil_move x h j (stencil_at_rest x)) = (stencil_at_rest x).
Proof.
  intros Hj. unfold stencil_restore, stencil_move, stencil_at_rest. simpl.
  f_equal; apply (moved_restore j _ Hj).
Qed.

Lemma stencil_eval_spec j fs :
  stencil_eval f (stencil_move x (step x dx j) j (stencil_at_rest x)) = Returns fs ↔
  Forall2 (fun pt v => f pt = Returns v) (stencil_points x dx j) fs.
Proof.
  unfold stencil_eval, stencil_move, stencil_at_rest, stencil_points.
  cbn [x_r1 x_l1 x_r2 x_l2 x_r3 x_l3].
  change (<[j := dadd (x !!! j) (step x dx j)]> x) with (forward x dx j).
  change (<[j := dsub (x !!! j) (step x dx j)]> x) with (backward x dx j).
  change (<[j := dadd (x !!! j) (dmul d2 (step x dx j))]> x)
    with (forward_by d2 x dx j).
  change (<[j := dsub (x !!! j) (dmul d2 (step x dx j))]> x)
    with (backward_by d2 x dx j).
  change (<[j := dadd (x !!! j) (dmul d3 (step x dx j))]> x)
    with (forward_by d3 x dx j).
  change (<[j := dsub (x !!! j) (dmul d3 (step x dx j))]> x)
    with (backward_by d3 x dx j).
  split.
  - destruct (f (forward x dx j)) as [r1|] eqn:H1; [|done].
    destruct (f (backward x dx j)) as [l1|] eqn:H2; [|done].
    destruct (f (forward_by d2 x dx j)) as [r2|] eqn:H3; [|done].
    destruct (f (backward_by d2 x dx j)) as [l2|] eqn:H4; [|done].
    destruct (f (forward_by d3 x dx j)) as [r3|] eqn:H5; [|done].
    destruct (f (backward_by d3 x dx j)) as [l3|] eqn:H6; [|done].
    intros [= <-]. repeat (apply Forall2_cons; split; [done|]).
    apply Forall2_nil_2.
  - intros Hall.
    repeat match goal with
      | H : Forall2 _ (_ :: _) _ |- _ =>
          apply Forall2_cons_inv_l in H as (? & ? & -> & H & ->)
      | H : Forall2 _ [] _ |- _ => apply Forall2_nil_inv_l in H as ->
      end.
    done.
Qed.

Lemma gradient_h_loop_spec f0 k a g s' g' :
  a + k ≤ length x → length g = length f0 * length x →
  gradient_h_loop f x dx f0 (seq a k) (stencil_at_rest x) g = Ok (s', g') →
  s' = (stencil_at_rest x) ∧ length g' = length f0 * length x ∧
  ∀ j, j < length x →
    (a ≤ j < a + k →
     ∃ fs, Forall2 (fun pt v => f pt = Returns v) (stencil_points x dx j) fs ∧
       Forall (fun v => length v = length f0) fs ∧
       ∀ i, i < length f0 →
         g' !! (j + i * length x)
         = Some (gradient_h_entry (fs !!! 0) (fs !!! 1) (fs !!! 2)
                   (fs !!! 3) (fs !!! 4) (fs !!! 5) (step x dx j) i)) ∧
    (¬ (a ≤ j < a + k) →
     ∀ i, g' !! (j + i * length x) = g !! (j + i * length x)).
Proof.
  revert a g. induction k as [|k IH]; intros a g Hak Hg.
  { simpl. intros [= <- <-]. split; [done|]. split; [done|].
    intros j Hj. split; [intros ?; lia|done]. }
  cbn [seq gradient_h_loop].
  destruct (stencil_eval f _) as [fs|e] eqn:Heval; [|done].
  apply stencil_eval_spec in Heval.
  destruct (forallb _ fs) eqn:Hsizes; [|done].
  rewrite stencil_restore_move by lia.
  assert (Hlens : Forall (fun v => length v = length f0) fs).
  { apply Forall_forall. intros v Hv.
    rewrite forallb_forall in Hsizes. apply Nat.eqb_eq, Hsizes.
    by apply list_elem_of_In. }
  assert (Hlen0 : length (fs !!! 0) = length f0).
  { apply Forall2_length in Heval. destruct fs as [|v fs]; [done|].
    by apply Forall_cons in Hlens as [? _]. }
  set (g1 := gradient_h_column _ _ _ _ _ _ _ _ _ g).
  assert (Hg1 : length g1 = length f0 * length x)
    by (unfold g1, gradient_h_column; by rewrite fill_column_length).
  intros Hloop. apply IH in Hloop as (-> & Hlen & Hcols); [|lia|done].
  split; [done|]. split; [done|]. intros j Hj. split.
  - intros Hrange. destruct (decide (j = a)) as [->|Hne].
    + exists fs. split; [done|]. split; [done|]. intros i Hi.
      destruct (Hcols a Hj) as [_ Hkeep]. rewrite Hkeep by lia.
      unfold g1, gradient_h_column.
      apply (fill_column_hit
               (fun i => gradient_h_entry (fs !!! 0) (fs !!! 1) (fs !!! 2)
                           (fs !!! 3) (fs !!! 4) (fs !!! 5)
                           (step x dx a) i)); [done| |].
      * apply elem_of_seq. lia.
      * rewrite Hg. nia.
    + destruct (Hcols j Hj) as [Hset _]. apply Hset. lia.
  - intros Hout i. destruct (Hcols j Hj) as [_ Hkeep].
    rewrite Hkeep by lia. unfold g1, gradient_h_column.
    apply fill_column_other. intros i' _ Heq.
    apply cell_inj in Heq as [-> _]; lia.
Qed.

(** The layout of a gradient returned by the high-order estimate. The
    function returned at [x] and at the six moved points of every
    variable ([x] moved by one, two and three steps forward and backward),
    each time a vector of the dimension [m] of [f(x)]; the gradient has
    [m * |x|] entries, and the entry [j + i * |x|] is
    [((15 m1 - 6 m2) + m3) / (10 h)], where [m1], [m2], [m3] are the
    differences of component [i] at one, two and three steps along
    variable [j], divided by 2, 4 and 6. *)
Theorem estimate_gradient_h_layout g :
  estimate_gradient_h f x dx = Ok g →
  ∃ f0, f x = Returns f0 ∧ length g = length f0 * length x ∧
    ∀ j, j < length x →
      ∃ fs, Forall2 (fun pt v => f pt = Returns v) (stencil_points x dx j) fs ∧
        Forall (fun v => length v = length f0) fs ∧
        ∀ i, i < length f0 →
          g !! (j + i * length x)
          = Some (gradient_h_entry (fs !!! 0) (fs !!! 1) (fs !!! 2)
                    (fs !!! 3) (fs !!! 4) (fs !!! 5) (step x dx j) i).
Proof.
  unfold estimate_gradient_h. destruct (f x) as [f0|e]; [|done].
  destruct (gradient_h_loop _ _ _ _ _ _ _) as [[s' g']|e|] eqn:Hloop;
    [|done..].
  intros [= <-]. exists f0. split; [done|].
  apply gradient_h_loop_spec in Hloop as (_ & Hlen & Hcols);
    [|simpl; lia|by rewrite length_replicate].
  split; [done|]. intros j Hj. destruct (Hcols j Hj) as [Hset _].
  apply Hset. lia.
Qed.

Lemma gradient_h_loop_outcome f0 k a g :
  a + k ≤ length x →
  (∀ j, a ≤ j < a + k →
     ∃ fs, Forall2 (fun pt v => f pt = Returns v) (stencil_points x dx j) fs) →
  (∃ r, gradient_h_loop f x dx f0 (seq a k) (stencil_at_rest x) g = Ok r) ∨
  (gradient_h_loop f x dx f0 (seq a k) (stencil_at_rest x) g
     = Throw (invalid_argument gradient_msg) ∧
   ∃ j fs, a ≤ j < a + k ∧
     Forall2 (fun pt v => f pt = Returns v) (stencil_points x dx j) fs ∧
     Exists (fun v => length v ≠ length f0) fs).
Proof.
  revert a g. induction k as [|k IH]; intros a g Hak Hret.
  { left. by eexists. }
  cbn [seq gradient_h_loop].
  destruct (Hret a ltac:(lia)) as [fs Hfs].
  pose proof Hfs as Heval. apply stencil_eval_spec in Heval. rewrite Heval.
  destruct (forallb _ fs) eqn:Hsizes.
  - rewrite stencil_restore_move by lia.
    match goal with
    | |- context [gradient_h_loop _ _ _ _ _ _ ?g1] =>
        destruct (IH (S a) g1 ltac:(lia))
          as [Hok|(Hthrow & j & fs' & Hj & Hrest)]
    end.
    + intros j Hj. apply Hret. lia.
    + by left.
    + right. split; [done|]. exists j, fs'. split; [lia|done].
  - right. split; [done|]. exists a, fs. split; [lia|]. split; [done|].
    apply Exists_exists.
    destruct (forallb_forall (fun v => length v =? length f0) fs)
      as [_ Hall].
    destruct (decide (Forall (fun v => length v = length f0) fs))
      as [Hyes|Hno].
    + rewrite Hall in Hsizes; [done|]. intros v Hv.
      apply Nat.eqb_eq. eapply Forall_forall in Hyes; [done|].
      by apply list_elem_of_In.
    + apply not_Forall_Exists in Hno; [|apply _].
      by apply Exists_exists in Hno.
Qed.

(** How [estimate_gradient_h] fails. An exception of the function at [x]
    propagates. When the function returns at [x] and at the six moved
    points of every variable, the call fails, with
    [std::invalid_argument], exactly when the fitness at some moved point
    has another dimension than the fitness at [x]; it returns a gradient
    otherwise. *)
Theorem estimate_gradient_h_failure :
  (∀ k, f x = Raises k →
        estimate_gradient_h f x dx = Throw (unspecified k)) ∧
  (∀ f0, f x = Returns f0 →
     (∀ j, j < length x →
        ∃ fs, Forall2 (fun pt v => f pt = Returns v) (stencil_points x dx j) fs) →
     (estimate_gradient_h f x dx = Throw (invalid_argument gradient_msg) ↔
        ∃ j fs, j < length x ∧
          Forall2 (fun pt v => f pt = Returns v) (stencil_points x dx j) fs ∧
          Exists (fun v => length v ≠ length f0) fs) ∧
     (is_invalid_argument (estimate_gradient_h f x dx) = false →
        is_ok (estimate_gradient_h f x dx) = true)).
Proof.
  unfold estimate_gradient_h. split; [by intros k ->|].
  intros f0 -> Hret.
  destruct (gradient_h_loop_outcome f0 (length x) 0
              (replicate (length f0 * length x) d0) ltac:(simpl; lia))
    as [([s' g'] & Hok)|(Hthrow & j & fs & Hj & Hfs & Hne)].
  - intros j Hj. apply Hret. lia.
  - pose proof Hok as Hspec.
    apply gradient_h_loop_spec in Hspec as (_ & _ & Hcols);
      [|simpl; lia|by rewrite length_replicate].
    rewrite Hok. split; [|done]. split; [done|].
    intros (j & fs & Hj & Hfs & Hne).
    destruct (Hcols j Hj) as [Hset _].
    destruct (Hset ltac:(lia)) as (fs' & Hfs' & Hlens & _).
    assert (fs = fs').
    { apply stencil_eval_spec in Hfs, Hfs'. congruence. }
    subst fs'. apply Exists_exists in Hne as (v & Hv & Hlen).
    eapply Forall_forall in Hlens; done.
  - rewrite Hthrow. split; [|done]. split; [|done].
    intros _. exists j, fs. split; [lia|done].
Qed.
End Estimation.

(** ** The statements at concrete inputs *)

Import Scenario.

(** The model of the engine meets the value the C++ standard requires of
    [std::mt19937]: the 10000th consecutive invocation of a
    default-constructed engine (seed 5489) produces 4123659995. *)
Example mt19937_10000th :
  last (mt19937.draws (100 * 100) (mt19937.seed 5489)) = Some 4123659995%Z.
Proof. vm_compute. reflexivity. Qed.

Lemma pop_inv_trio : pop_inv trio.
Proof. unfold pop_inv. simpl. repeat split; repeat constructor. Qed.


Lemma push_back_appends_witness :
  ∃ p', push_back [one] (empty_population line) = (Ok tt, p') ∧
        length (m_ID p') = 1 ∧ last (m_x p') = Some [one] ∧
        last (m_f p') = Some [one].
Proof.
  assert (Hrun : ∃ p', push_back [one] (empty_population line) = (Ok tt, p'))
    by (eexists; vm_compute; reflexivity).
  destruct Hrun as [p' Hrun]. exists p'. split; [exact Hrun|].
  destruct (push_back_appends _ _ _ Hrun)
    as (f & Hf & (Hlen & _) & (_ & Hx & Hlast) & _).
  injection Hf as <-. done.
Defined.


Lemma pop_inv_preserved_witness :
  pop_inv (push_back [zero] trio).2 ∧
  pop_inv (set_xf 0 [zero] [zero] trio).2 ∧
  pop_inv (set_x 2 [zero] trio).2.
Proof.
  destruct (@pop_inv_preserved mt19937.state _ utils) as (_ & Hpb & Hxf & Hx).
  split; [apply Hpb, pop_inv_trio|].
  split; [apply Hxf, pop_inv_trio|apply Hx, pop_inv_trio].
Defined.

Lemma champion_unconstrained_minimal_witness :
  ∃ i a, champion [] trio = (Ok i, trio) ∧ i < 3 ∧
    objective trio i = Some a ∧
    ∀ j b, objective trio j = Some b →
      dlt b a = false ∧ (is_nan a = false → is_nan b = false → dle a b = true).
Proof.
  apply (champion_unconstrained_minimal [] trio).
  - exact pop_inv_trio.
  - simpl. discriminate.
  - reflexivity.
  - reflexivity.
  - reflexivity.
Defined.


Lemma set_xf_frame_witness :
  ∃ p', set_xf 1 [zero] [three] trio = (Ok tt, p') ∧
    individual p' 1 = Some (12%Z, [zero], [three]) ∧
    individual p' 0 = individual trio 0 ∧ m_ID p' = m_ID trio.
Proof.
  destruct (set_xf_frame 1 [zero] [three] trio)
    as (p' & Hrun & (id & Hid & Hi) & Hother & HID & _).
  - exact pop_inv_trio.
  - simpl. lia.
  - reflexivity.
  - reflexivity.
  - exists p'. injection Hid as <-.
    split; [exact Hrun|]. split; [exact Hi|].
    split; [apply Hother; discriminate|exact HID].
Defined.

Lemma population_new_deterministic_witness :
  ∃ pop1 pop2,
    (population_new (H := Fixtures.scattered) line 4 (Some 42%Z)
       (mt19937.seed 1)).1 = Ok pop1 ∧
    (population_new (H := Fixtures.scattered) Fixtures.flat 4 (Some 42%Z)
       (mt19937.seed 2)).1 = Ok pop2 ∧
    m_ID pop1 = m_ID pop2 ∧ m_x pop1 = m_x pop2 ∧
    m_ID pop1 = [14693624577341391708; 13502904847239337031;
                 11009942179118372454; 2877591057541362902]%Z ∧
    m_x pop1 = [[zero]; [zero]; [zero]; [one]].
Proof.
  assert (Hok1 : is_ok (population_new (H := Fixtures.scattered) line 4
                          (Some 42%Z) (mt19937.seed 1)).1 = true)
    by (vm_compute; reflexivity).
  assert (Hok2 : is_ok (population_new (H := Fixtures.scattered)
                          Fixtures.flat 4 (Some 42%Z) (mt19937.seed 2)).1
                 = true)
    by (vm_compute; reflexivity).
  destruct (population_new (H := Fixtures.scattered) line 4 (Some 42%Z)
              (mt19937.seed 1)).1 as [pop1|e|] eqn:H1;
    [|discriminate Hok1..].
  destruct (population_new (H := Fixtures.scattered) Fixtures.flat 4
              (Some 42%Z) (mt19937.seed 2)).1 as [pop2|e|] eqn:H2;
    [|discriminate Hok2..].
  exists pop1, pop2. split; [reflexivity|]. split; [reflexivity|].
  destruct (population_new_deterministic (H := Fixtures.scattered)
              line Fixtures.flat 4 42%Z (mt19937.seed 1) (mt19937.seed 2)
              pop1 pop2 eq_refl H1 H2)
    as ((HID & Hx) & Hids & Hxs & _).
  split; [exact HID|]. split; [exact Hx|].
  assert (Hdraws : ctor_draws 4 (engine_seed (42 mod 2 ^ 32)%Z)
                   = [(1608637542, 14693624577341391708);
                      (787846414, 13502904847239337031);
                      (2571218620, 11009942179118372454);
                      (1914837113, 2877591057541362902)]%Z)
    by (vm_compute; reflexivity).
  rewrite Hdraws in Hids, Hxs. split; [exact Hids|].
  apply (Forall2_returns_inj _ _ _ _ Hxs).
  repeat constructor.
Defined.

(** C9, as stated, fails. With the seed 1108944620 the first and the third
    value that the engine hands out are both 1406499519: of three islands,
    islands 0 and 2 receive the same population seed. With the seed
    2366665193 the third value is 2366665193: island 2 receives the
    supplied seed itself. *)
Lemma archipelago_n_seeds_repeat :
  (∃ arch : archipelago mt19937.state unit nat,
     archipelago_n 3 tt line 1 1108944620 0 = Ok arch ∧
     island_seeds arch = [1406499519; 2806087092; 1406499519]%Z ∧
     ¬ seeds_derived_and_distinct 1108944620 arch) ∧
  (∃ arch : archipelago mt19937.state unit nat,
     archipelago_n 3 tt line 1 2366665193 0 = Ok arch ∧
     island_seeds arch = [1660130975; 1500099193; 2366665193]%Z ∧
     ¬ seeds_derived_and_distinct 2366665193 arch).
Proof.
  split.
  - assert (Hok : is_ok (archipelago_n (E := mt19937.state) (topology := nat)
                           3 tt line 1 1108944620 0) = true)
      by (vm_compute; reflexivity).
    destruct (archipelago_n 3 tt line 1 1108944620 0) as [arch|e|] eqn:Hrun;
      [|discriminate Hok..].
    apply archipelago_n_draws in Hrun.
    assert (Hseeds : island_seeds arch
                     = [1406499519; 2806087092; 1406499519]%Z)
      by (rewrite Hrun; vm_compute; reflexivity).
    exists arch. split; [reflexivity|]. split; [exact Hseeds|].
    unfold seeds_derived_and_distinct. rewrite Hseeds. intros [_ Hnd].
    apply NoDup_cons in Hnd as [Hnin _]. apply Hnin.
    apply list_elem_of_further, list_elem_of_here.
  - assert (Hok : is_ok (archipelago_n (E := mt19937.state) (topology := nat)
                           3 tt line 1 2366665193 0) = true)
      by (vm_compute; reflexivity).
    destruct (archipelago_n 3 tt line 1 2366665193 0) as [arch|e|] eqn:Hrun;
      [|discriminate Hok..].
    apply archipelago_n_draws in Hrun.
    assert (Hseeds : island_seeds arch
                     = [1660130975; 1500099193; 2366665193]%Z)
      by (rewrite Hrun; vm_compute; reflexivity).
    exists arch. split; [reflexivity|]. split; [exact Hseeds|].
    unfold seeds_derived_and_distinct. rewrite Hseeds. intros [Hnin _].
    apply Hnin. do 2 apply list_elem_of_further. apply list_elem_of_here.
Qed.

Lemma archipelago_n_island_seeds_witness :
  ∃ arch : archipelago mt19937.state unit nat,
    archipelago_n 2 tt line 1 42 0 = Ok arch ∧
    island_seeds arch = mt19937.draws 2 (mt19937.seed (42 mod 2 ^ 32)) ∧
    Forall in32 (island_seeds arch) ∧
    length (m_islands arch) = 2.
Proof.
  assert (Hok : is_ok (archipelago_n (E := mt19937.state) (topology := nat)
                         2 tt line 1 42 0) = true)
    by (vm_compute; reflexivity).
  destruct (archipelago_n 2 tt line 1 42 0) as [arch|e|] eqn:Hrun;
    [|discriminate Hok..].
  exists arch. split; [reflexivity|].
  exact (archipelago_n_island_seeds 2 tt line 1 42 0 arch Hrun).
Defined.

Lemma load_atomic_witness :
  (load truncated_archive lone_island).1 = Throw (unspecified 3) ∧
  (load truncated_archive lone_island).2 = lone_island ∧
  (load complete_archive lone_island).1 = Ok complete_archive ∧
  m_idx_map (load complete_archive lone_island).2 !! 4096%N = Some 0 ∧
  m_idx_map (load complete_archive lone_island).2 !! 8192%N = Some 1.
Proof.
  split; [reflexivity|].
  split; [by apply (load_atomic truncated_archive lone_island)|].
  split; [reflexivity|].
  destruct (load_atomic complete_archive lone_island) as [_ Hok].
  destruct (Hok complete_archive eq_refl)
    as (islands & migrants & topo & ar1 & ar2 & Hi & _ & _ & Hstate & Hmap).
  injection Hi as <- <-.
  assert (Hnd : NoDup (ptr_get <$> [stored_island 4096 1; stored_island 8192 2]))
    by (simpl; apply (bool_decide_unpack _); reflexivity).
  split.
  - apply (Hmap Hnd 0 (stored_island 4096 1)). by rewrite Hstate.
  - apply (Hmap Hnd 1 (stored_island 8192 2)). by rewrite Hstate.
Defined.

(** ** The further statements at concrete inputs *)

Import Fixtures.

Lemma pop_inv_tied : pop_inv tied.
Proof. unfold pop_inv. simpl. repeat split; repeat constructor. Qed.

Lemma set_xf_fails_iff_witness :
  (set_xf 3 [zero] [zero] trio).1
    = Throw (invalid_argument
               "Trying to access individual at position: 3, while population has size: 3") ∧
  (set_xf 3 [zero] [zero] trio).2 = trio.
Proof.
  destruct (set_xf_fails_iff 3 [zero] [zero] trio pop_inv_trio)
    as (_ & Hidx & _ & Hsame).
  assert (Hout : (set_xf 3 [zero] [zero] trio).1
                 = Throw (invalid_argument (set_xf_i_msg 3 3)))
    by (apply Hidx; simpl; lia).
  split; [exact Hout|]. apply Hsame. rewrite Hout. reflexivity.
Defined.

Lemma set_x_effect_witness :
  ∃ p', set_x 1 [zero] trio = (Ok tt, p') ∧
        individual p' 1 = Some (12%Z, [zero], [zero]) ∧
        individual p' 2 = individual trio 2.
Proof.
  destruct (set_x_effect 1 [zero] trio) as [Hok _].
  assert (Hrun : ∃ p', set_x 1 [zero] trio = (Ok tt, p'))
    by (eexists; vm_compute; reflexivity).
  destruct Hrun as [p' Hrun]. exists p'. split; [exact Hrun|].
  destruct (Hok p' Hrun) as (id & f & Hf & Hid & Hi & Hother & _).
  injection Hf as <-. injection Hid as <-.
  split; [exact Hi|]. apply Hother. discriminate.
Defined.

Lemma fitness_consistent_preserved_witness :
  fitness_consistent (push_back [zero] trio).2 ∧
  fitness_consistent (set_x 0 [zero] trio).2.
Proof.
  assert (Htrio : fitness_consistent trio)
    by (unfold fitness_consistent; simpl; repeat constructor).
  destruct (@fitness_consistent_preserved mt19937.state _ utils)
    as (_ & Hpb & Hx).
  split; [apply Hpb, Htrio|apply Hx, Htrio].
Defined.

Lemma population_ctor_size_witness :
  ∃ pop : population mt19937.state,
    population_ctor line 2 (-1) = Ok pop ∧ length (m_ID pop) = 2 ∧
    m_prob pop = line ∧ m_seed pop = 4294967295%Z.
Proof.
  assert (Hok : is_ok (population_ctor (E := mt19937.state) line 2 (-1))
                = true) by (vm_compute; reflexivity).
  destruct (population_ctor line 2 (-1)) as [pop|e|] eqn:Hrun;
    [|discriminate Hok..].
  exists pop. split; [reflexivity|].
  destruct (population_ctor_size (E := mt19937.state) line 2 (-1))
    as [Hsize _].
  destruct (Hsize pop Hrun) as (HID & _ & _ & Hprob & Hseed & _).
  split; [exact HID|]. split; [exact Hprob|exact Hseed].
Defined.

Lemma population_ctor_total_witness :
  ∃ pop : population mt19937.state, population_ctor line 5 7 = Ok pop.
Proof.
  apply (population_ctor_total line 5 7).
  - intros s. exists [zero]. split; reflexivity.
  - intros x Hx. exists x. split; [reflexivity|exact Hx].
Defined.

Lemma pop_inv_nan_first : pop_inv nan_first.
Proof. unfold pop_inv. simpl. repeat split; repeat constructor. Qed.

Lemma champion_first_minimum_witness :
  (champion [] tied).1 = Ok 1 ∧
  (∃ a, objective tied 1 = Some a ∧
     (∀ j b, j < 1 → objective tied j = Some b → is_nan b = false →
             dlt a b = true) ∧
     (∀ j b, objective tied j = Some b → dle a b = true)) ∧
  (champion [] nan_first).1 = Ok 0.
Proof.
  assert (Hrun : (champion [] tied).1 = Ok 1) by (vm_compute; reflexivity).
  split; [exact Hrun|].
  destruct (champion_first_minimum [] tied 1 pop_inv_tied eq_refl eq_refl
              eq_refl Hrun) as (a & Ha & Hbefore & Hall & _).
  split.
  - exists a. split; [exact Ha|]. split; [exact Hbefore|].
    apply Hall. intros [|[|[|j]]] b; simpl; intros [= <-]; reflexivity.
  - assert (Hok : is_ok (champion [] nan_first).1 = true)
      by (vm_compute; reflexivity).
    destruct (champion [] nan_first).1 as [i| |] eqn:Hnan;
      [|discriminate Hok..].
    destruct (champion_first_minimum [] nan_first i pop_inv_nan_first
                eq_refl eq_refl eq_refl Hnan) as (_ & _ & _ & _ & Hfirst).
    f_equal. apply (Hfirst S754_nan); reflexivity.
Defined.

Lemma champion_tolerance_irrelevant_witness :
  champion_scalar zero trio = champion [one; two] trio ∧
  champion [one; two] trio = champion [] trio.
Proof. apply (champion_tolerance_irrelevant zero [one; two] [] trio). reflexivity. Defined.

Lemma set_xf_compose_witness :
  (let! _ := set_xf 0 [zero] [one] in set_xf 2 [one] [zero]) trio
  = (let! _ := set_xf 2 [one] [zero] in set_xf 0 [zero] [one]) trio.
Proof.
  assert (H0 : 0 < length (m_ID trio)) by (simpl; lia).
  assert (H2 : 2 < length (m_ID trio)) by (simpl; lia).
  destruct (set_xf_compose 0 2 [zero] [one] [one] [zero] trio pop_inv_trio
              H0 H2 eq_refl eq_refl eq_refl eq_refl) as [_ Hcomm].
  apply Hcomm. discriminate.
Defined.

Lemma load_idx_map_lookup_witness :
  m_idx_map (load complete_archive lone_island).2 !! 1024%N = None.
Proof.
  assert (Hrun : (load complete_archive lone_island).1 = Ok complete_archive)
    by reflexivity.
  destruct (load_idx_map_lookup complete_archive complete_archive
              lone_island 1024%N Hrun) as [_ Hmiss].
  apply Hmiss. apply (bool_decide_unpack _). reflexivity.
Defined.

Lemma archipelago_n_islands_witness :
  ∃ (arch : archipelago mt19937.state unit nat) ptr,
    archipelago_n 2 tt line 3 42 0 = Ok arch ∧
    m_islands arch !! 1 = Some ptr ∧
    m_prob (isl_pop (ptr_deref ptr)) = line ∧
    length (m_ID (isl_pop (ptr_deref ptr))) = 3.
Proof.
  assert (Hok : is_ok (archipelago_n (E := mt19937.state) (topology := nat)
                         2 tt line 3 42 0) = true)
    by (vm_compute; reflexivity).
  destruct (archipelago_n 2 tt line 3 42 0) as [arch|e|] eqn:Hrun;
    [|discriminate Hok..].
  assert (Hlen : length (m_islands arch) = 2).
  { apply archipelago_n_draws in Hrun as Hseeds.
    apply (f_equal length) in Hseeds.
    unfold island_seeds in Hseeds. by rewrite length_map, draws_length in Hseeds. }
  destruct (lookup_lt_is_Some_2 (m_islands arch) 1) as [ptr Hptr];
    [rewrite Hlen; lia|].
  exists arch, ptr. split; [reflexivity|]. split; [exact Hptr|].
  destruct (archipelago_n_islands 2 tt line 3 42 0 arch 1 ptr Hrun Hptr)
    as (_ & Hprob & Hsize & _).
  split; [exact Hprob|exact Hsize].
Defined.

Lemma archipelago_n_edges_witness :
  archipelago_n (E := mt19937.state) (topology := nat) 1 tt line (-1) 42 0
  = Throw bad_numeric_cast.
Proof.
  apply (archipelago_n_edges (E := mt19937.state) (topology := nat)
           0 tt line (-1) 42 0).
  left. reflexivity.
Defined.

Lemma island_seeds_stream_witness :
  ∃ arch arch' : archipelago mt19937.state unit nat,
    archipelago_n 1 tt line 0 (-1) 0 = Ok arch ∧
    archipelago_n 2 tt constrained_line 1 4294967295 7 = Ok arch' ∧
    island_seeds arch = take 1 (island_seeds arch').
Proof.
  assert (Hok : is_ok (archipelago_n (E := mt19937.state) (topology := nat)
                         1 tt line 0 (-1) 0) = true)
    by (vm_compute; reflexivity).
  assert (Hok' : is_ok (archipelago_n (E := mt19937.state) (topology := nat)
                          2 tt constrained_line 1 4294967295 7) = true)
    by (vm_compute; reflexivity).
  destruct (archipelago_n 1 tt line 0 (-1) 0) as [arch|e|] eqn:Hrun;
    [|discriminate Hok..].
  destruct (archipelago_n 2 tt constrained_line 1 4294967295 7)
    as [arch'|e|] eqn:Hrun'; [|discriminate Hok'..].
  exists arch, arch'. split; [reflexivity|]. split; [reflexivity|].
  apply (island_seeds_stream 1 2 tt tt line constrained_line 0 1 (-1)
           4294967295 0 7 arch arch' Hrun Hrun'); [reflexivity|lia].
Defined.

Lemma estimate_sparsity_pattern_witness :
  estimate_sparsity shifted point dx_1em8 = Ok [(0, 0); (1, 1)] ∧
  StronglySorted pair_le [(0, 0); (1, 1)] ∧ NoDup [(0, 0); (1, 1)].
Proof.
  assert (Hrun : estimate_sparsity shifted point dx_1em8
                 = Ok [(0, 0); (1, 1)]) by (vm_compute; reflexivity).
  split; [exact Hrun|].
  destruct (estimate_sparsity_pattern shifted point dx_1em8 _ Hrun)
    as (f0 & _ & _ & _ & Hsorted & Hnd).
  split; [exact Hsorted|exact Hnd].
Defined.

Lemma estimate_sparsity_failure_witness :
  estimate_sparsity resizing point dx_1em8
  = Throw (invalid_argument sparsity_msg).
Proof.
  destruct (estimate_sparsity_failure resizing point dx_1em8) as [_ Hret].
  destruct (Hret [d1] eq_refl) as [Hiff _].
  - intros j Hj. unfold resizing. destruct (SFeqb _ d1); by eexists.
  - apply Hiff. exists 0, [d1; d1].
    split; [simpl; lia|]. split; [vm_compute; reflexivity|simpl; lia].
Defined.

Lemma estimate_gradient_layout_witness :
  ∃ g, estimate_gradient shifted point dx_1em8 = Ok g ∧ length g = 6 ∧
    g !! (1 + 1 * 2)
    = Some (ddiv (ddiv (dsub (dadd d2 (step point dx_1em8 1))
                             (dsub d2 (step point dx_1em8 1))) d2)
                 (step point dx_1em8 1)).
Proof.
  assert (Hok : is_ok (estimate_gradient shifted point dx_1em8) = true)
    by (vm_compute; reflexivity).
  destruct (estimate_gradient shifted point dx_1em8) as [g|e|] eqn:Hrun;
    [|discriminate Hok..].
  exists g. split; [reflexivity|].
  destruct (estimate_gradient_layout shifted point dx_1em8 g Hrun)
    as (f0 & Hf0 & Hlen & Hcols).
  injection Hf0 as <-. split; [exact Hlen|].
  destruct (Hcols 1 ltac:(simpl; lia))
    as (fr & fl & Hfr & Hfl & _ & _ & Hentry).
  injection Hfr as <-. injection Hfl as <-.
  exact (Hentry 1 ltac:(simpl; lia)).
Defined.

Lemma estimate_gradient_failure_witness :
  estimate_gradient resizing point dx_1em8
  = Throw (invalid_argument gradient_msg).
Proof.
  destruct (estimate_gradient_failure resizing point dx_1em8) as [_ Hret].
  destruct (Hret [d1] eq_refl) as [Hiff _].
  - intros j Hj. unfold resizing.
    destruct (SFeqb _ d1), (SFeqb _ d1); by eexists _, _.
  - apply Hiff. exists 0, [d1; d1], [d1; d1].
    split; [simpl; lia|]. split; [vm_compute; reflexivity|].
    split; [vm_compute; reflexivity|left; simpl; lia].
Defined.

Lemma estimate_gradient_h_layout_witness :
  ∃ g, estimate_gradient_h shifted point dx_1em2 = Ok g ∧ length g = 6.
Proof.
  assert (Hok : is_ok (estimate_gradient_h shifted point dx_1em2) = true)
    by (vm_compute; reflexivity).
  destruct (estimate_gradient_h shifted point dx_1em2) as [g|e|] eqn:Hrun;
    [|discriminate Hok..].
  exists g. split; [reflexivity|].
  destruct (estimate_gradient_h_layout shifted point dx_1em2 g Hrun)
    as (f0 & Hf0 & Hlen & _).
  injection Hf0 as <-. exact Hlen.
Defined.

Lemma estimate_gradient_h_failure_witness :
  estimate_gradient_h resizing point dx_1em2
  = Throw (invalid_argument gradient_msg).
Proof.
  destruct (estimate_gradient_h_failure resizing point dx_1em2) as [_ Hret].
  destruct (Hret [d1] eq_refl) as [Hiff _].
  - intros j Hj.
    exists ((fun pt : vector_double =>
               if SFeqb (pt !!! 0) d1 then [d1] else [d1; d1])
            <$> stencil_points point dx_1em2 j).
    apply Forall2_fmap_r, Forall_Forall2_diag, Forall_forall.
    intros pt _. unfold resizing, compose. cbv beta.
    destruct (SFeqb (pt !!! 0) d1); reflexivity.
  - apply Hiff.
    exists 0, [[d1; d1]; [d1; d1]; [d1; d1]; [d1; d1]; [d1; d1]; [d1; d1]].
    split; [simpl; lia|]. split.
    + repeat (apply Forall2_cons_2; [vm_compute; reflexivity|]).
      apply Forall2_nil_2.
    + apply Exists_cons_hd. simpl. lia.
Defined.
